(** * Conversation parser and analyzer of claude-code-data

    A shallow embedding of [src/parser/conversation-parser.ts],
    [src/parser/conversation-analyzer.ts] and [src/utils/type-guards.ts],
    with the properties of the specification stated over it.

    Conventions of the embedding:
    - JavaScript strings are [string]; arrays are [list] (a [push] appends
      at the end, an [unshift] conses at the front);
    - [Map] and [Set] are stdpp's [gmap] and [gset];
    - array lengths, indices and counters are [nat]; the float-valued
      fields (cost, duration, tokens, timestamps) live in an abstract
      number type with the operations the analyzer uses ([JSNumber]);
    - the functions of the JavaScript runtime that the parser calls
      ([String.prototype.trim], [JSON.parse], [JSON.stringify], the text of
      the engine's [TypeError]) are the fields of [JSRuntime];
    - a thrown exception is an explicit outcome ([Threw]);
    - recursion and loops that the source does not bound are given fuel,
      and [None] means that the fuel ran out. *)

From Stdlib Require Import Ascii String.
From stdpp Require Import base option strings list gmap fin_maps pretty.

Local Open Scope string_scope.
Local Open Scope list_scope.
Local Open Scope nat_scope.

(** ** Numbers *)

(** The operations on JavaScript numbers that the analyzer performs. *)
Class JSNumber (Num : Type) := {
  num_zero : Num;                       (* the literal 0 *)
  num_add : Num -> Num -> Num;          (* a + b *)
  num_sub : Num -> Num -> Num;          (* a - b *)
  num_div : Num -> Num -> Num;          (* a / b *)
  num_of_nat : nat -> Num;              (* an array length used as a number *)
  num_falsy : Num -> bool;              (* 0, -0 and NaN *)
  Math_max : list Num -> Num;           (* Math.max(...xs) *)
  Math_min : list Num -> Num;           (* Math.min(...xs) *)
  Date_getTime : string -> Num;         (* new Date(s).getTime() *)
}.

(** ** JSON values *)

#[local] Set Warnings "-register-all".


Inductive json {Num : Type} : Type :=
  | JNull
  | JBool (b : bool)
  | JNum (n : Num)
  | JStr (s : string)
  | JArr (items : list json)
  | JObj (fields : list (string * json)).
Arguments json : clear implicits.

(** ** Typed records ([src/types/messages.ts]) *)

Record SummaryMessage := {
  summary : string;
  leafUuid : string;
}.

Record BaseMessage := {
  base_uuid : string;
  base_parentUuid : option string;      (* string | null *)
  base_timestamp : string;
  base_sessionId : string;
  base_version : string;
  base_cwd : string;
  base_isSidechain : bool;
}.

Section Messages.
Context {Num : Type}.

Record TokenUsage := {
  input_tokens : option Num;
  output_tokens : option Num;
  cache_creation_input_tokens : option Num;
  cache_read_input_tokens : option Num;
}.

Inductive AssistantContentBlock :=
  | TextContentBlock (text : string)
  | ToolUseContentBlock (id name : string) (input : json Num).

(** A block of a user message; [block_type] is its [type] field. *)
Record UserContentBlock := {
  block_type : string;
  tool_use_id : string;
  is_error : option bool;
}.

Inductive UserMessageContent :=
  | UserText (text : string)
  | UserBlocks (blocks : list UserContentBlock).

Record ClaudeAPIResponse := {
  response_id : string;
  model : string;
  response_content : list AssistantContentBlock;
  usage : option TokenUsage;
}.

Inductive ConversationMessage :=
  | UserMessage (base : BaseMessage) (content : UserMessageContent)
                (isMeta : option bool)
  | AssistantMessage (base : BaseMessage) (message : ClaudeAPIResponse)
                     (costUSD durationMs : option Num).

Definition base (m : ConversationMessage) : BaseMessage :=
  match m with
  | UserMessage b _ _ => b
  | AssistantMessage b _ _ _ => b
  end.

Definition uuid (m : ConversationMessage) : string := base_uuid (base m).
Definition parentUuid (m : ConversationMessage) : option string :=
  base_parentUuid (base m).
Definition timestamp (m : ConversationMessage) : string :=
  base_timestamp (base m).

(** [message.type] *)
Definition type (m : ConversationMessage) : string :=
  match m with
  | UserMessage _ _ _ => "user"
  | AssistantMessage _ _ _ _ => "assistant"
  end.
End Messages.
Arguments TokenUsage : clear implicits.
Arguments AssistantContentBlock : clear implicits.
Arguments ClaudeAPIResponse : clear implicits.
Arguments ConversationMessage : clear implicits.

(** ** Parser results ([conversation-parser.ts]) *)

Record ParseError := {
  line : nat;
  error : string;
  content : string;
}.

(** [S] and [M] are the element types of [summaries] and [messages]: decoded
    JSON values as the parser stores them, the typed records where the
    validator and the analyzer read their fields. *)
Record ParsedConversation {S M : Type} := {
  summaries : list S;
  messages : list M;
  filePath : string;
  lineCount : nat;
  parseErrors : list ParseError;
}.
Arguments ParsedConversation : clear implicits.

Abbreviation Conversation Num :=
  (ParsedConversation SummaryMessage (ConversationMessage Num)).

(** ** Type guards on typed messages ([type-guards.ts]) *)

Section TypedGuards.
Context {Num : Type}.

Definition isUserMessage (message : ConversationMessage Num) : bool :=
  bool_decide (type message = "user").

Definition isAssistantMessage (message : ConversationMessage Num) : bool :=
  bool_decide (type message = "assistant").

Definition isToolUseContent (content : AssistantContentBlock Num) : bool :=
  match content with
  | ToolUseContentBlock _ _ _ => true
  | TextContentBlock _ => false
  end.

Definition isTextContent (content : AssistantContentBlock Num) : bool :=
  match content with
  | TextContentBlock _ => true
  | ToolUseContentBlock _ _ _ => false
  end.

(** [Array.isArray(content) && content.some(b => b.type === "tool_result")];
    only called on user messages. *)
Definition hasToolResult (message : ConversationMessage Num) : bool :=
  match message with
  | UserMessage _ (UserBlocks blocks) _ =>
      existsb (fun block => bool_decide (block_type block = "tool_result"))
              blocks
  | _ => false
  end.
End TypedGuards.

(** ** Structural validator ([parseAndValidateConversation]) *)

Section Validator.
Context {Num : Type}.
Implicit Types (message : ConversationMessage Num)
               (result : Conversation Num).

(** First [forEach]: [index] is the array index of the head of the list,
    [offset] is [result.summaries.length]; the state is the pair of
    [messageIds] and [validationErrors].  (The parent test at the end of
    the callback has an empty body.) *)
Fixpoint duplicatePass (offset index : nat)
    (msgs : list (ConversationMessage Num))
    (messageIds : gset string) (validationErrors : list ParseError)
    : gset string * list ParseError :=
  match msgs with
  | [] => (messageIds, validationErrors)
  | message :: rest =>
      let validationErrors :=
        if bool_decide (uuid message ∈ messageIds)
        then validationErrors ++
               [ {| line := index + offset + 1;
                    error := "Duplicate UUID: " +:+ uuid message;
                    content := "" |} ]
        else validationErrors in
      duplicatePass offset (S index) rest
                    ({[ uuid message ]} ∪ messageIds) validationErrors
  end.

(** [message.parentUuid && message.parentUuid !== null &&
     !messageIds.has(message.parentUuid)]: the empty string is falsy. *)
Definition orphanCheck (messageIds : gset string) message : option string :=
  match parentUuid message with
  | Some p =>
      if bool_decide (p = "") then None
      else if bool_decide (p ∈ messageIds) then None else Some p
  | None => None
  end.

(** Second [forEach]. *)
Fixpoint orphanPass (offset index : nat)
    (msgs : list (ConversationMessage Num))
    (messageIds : gset string) (validationErrors : list ParseError)
    : list ParseError :=
  match msgs with
  | [] => validationErrors
  | message :: rest =>
      let validationErrors :=
        match orphanCheck messageIds message with
        | Some p =>
            validationErrors ++
              [ {| line := index + offset + 1;
                   error := "Orphaned message: parent UUID " +:+ p +:+
                            " not found";
                   content := "" |} ]
        | None => validationErrors
        end in
      orphanPass offset (S index) rest messageIds validationErrors
  end.

(** The [validationErrors] array after both passes. *)
Definition validationErrors result : list ParseError :=
  let offset := length (summaries result) in
  let '(messageIds, errs) :=
    duplicatePass offset 0 (messages result) ∅ [] in
  orphanPass offset 0 (messages result) messageIds errs.

(** The body of [parseAndValidateConversation] after
    [const result = await parseConversation(filePath)], as a function of
    that result read at its declared type. *)
Definition parseAndValidateConversation result : Conversation Num :=
  {| summaries := summaries result;
     messages := messages result;
     filePath := filePath result;
     lineCount := lineCount result;
     parseErrors := parseErrors result ++ validationErrors result |}.

(** The errors each [forEach] pushes: [validationErrors] after the first
    pass, and what the second pass appends. *)
Definition duplicateErrorsOf result : list ParseError :=
  (duplicatePass (length (summaries result)) 0 (messages result) ∅ []).2.

Definition orphanErrorsOf result : list ParseError :=
  orphanPass (length (summaries result)) 0 (messages result)
    (duplicatePass (length (summaries result)) 0 (messages result) ∅ []).1
    [].

(** The error records, by position. *)
Definition duplicateError (offset i : nat) message : ParseError :=
  {| line := i + offset + 1;
     error := "Duplicate UUID: " +:+ uuid message;
     content := "" |}.

Definition orphanError (offset i : nat) (p : string) : ParseError :=
  {| line := i + offset + 1;
     error := "Orphaned message: parent UUID " +:+ p +:+ " not found";
     content := "" |}.

(** One duplicate error for each position whose identifier already
    occurs at an earlier position. *)
Definition expectedDuplicates (offset : nat)
    (msgs : list (ConversationMessage Num)) : list ParseError :=
  concat (imap (fun i m =>
                  if bool_decide (uuid m ∈ uuid <$> take i msgs)
                  then [duplicateError offset i m] else [])
               msgs).

(** One orphan error for each position whose parent identifier is a
    non-empty string and is the identifier of no message. *)
Definition expectedOrphans (offset : nat)
    (msgs : list (ConversationMessage Num)) : list ParseError :=
  concat (imap (fun i m =>
                  match parentUuid m with
                  | Some p =>
                      if bool_decide (p = "") then []
                      else if bool_decide (p ∈ uuid <$> msgs) then []
                           else [orphanError offset i p]
                  | None => []
                  end)
               msgs).
End Validator.

(** ** Analyzer ([conversation-analyzer.ts]) *)

Inductive ConversationNode {Num : Type} :=
  | Node (message : ConversationMessage Num)
         (children : list ConversationNode).
Arguments ConversationNode : clear implicits.

Record TotalTokens {Num : Type} := {
  input : Num;
  output : Num;
  cacheCreation : Num;
  cacheRead : Num;
}.
Arguments TotalTokens : clear implicits.

Record ConversationStats {Num : Type} := {
  messageCount : nat;
  userMessageCount : nat;
  assistantMessageCount : nat;
  totalCostUSD : Num;
  totalTokens : TotalTokens Num;
  averageResponseTimeMs : Num;
  conversationDurationMs : Num;
  toolUsageCount : nat;
  models : gmap string nat;
  branches : nat;
}.
Arguments ConversationStats : clear implicits.

Section Analyzer.
Context {Num : Type} `{!JSNumber Num}.
Implicit Types (msg message : ConversationMessage Num)
               (conversation : Conversation Num).

(** [x || 0] and [x ?? 0] on an optional number. *)
Definition or_zero (x : option Num) : Num :=
  match x with
  | Some v => if num_falsy v then num_zero else v
  | None => num_zero
  end.
Definition nullish_zero (x : option Num) : Num := default num_zero x.

(** Field reads on the elements of [assistantMessages]. *)
Definition msg_usage msg : option (TokenUsage Num) :=
  match msg with
  | AssistantMessage _ r _ _ => usage r
  | UserMessage _ _ _ => None
  end.
Definition msg_model msg : string :=
  match msg with
  | AssistantMessage _ r _ _ => model r
  | UserMessage _ _ _ => ""
  end.
Definition msg_content msg : list (AssistantContentBlock Num) :=
  match msg with
  | AssistantMessage _ r _ _ => response_content r
  | UserMessage _ _ _ => []
  end.
Definition msg_costUSD msg : option Num :=
  match msg with
  | AssistantMessage _ _ c _ => c
  | UserMessage _ _ _ => None
  end.
Definition msg_durationMs msg : option Num :=
  match msg with
  | AssistantMessage _ _ _ d => d
  | UserMessage _ _ _ => None
  end.

Definition zeroTokens : TotalTokens Num :=
  {| input := num_zero; output := num_zero;
     cacheCreation := num_zero; cacheRead := num_zero |}.

Definition addTokens (acc : TotalTokens Num) msg : TotalTokens Num :=
  let usage := msg_usage msg in
  {| input := num_add (input acc) (nullish_zero (usage ≫= input_tokens));
     output := num_add (output acc) (nullish_zero (usage ≫= output_tokens));
     cacheCreation :=
       num_add (cacheCreation acc)
               (nullish_zero (usage ≫= cache_creation_input_tokens));
     cacheRead :=
       num_add (cacheRead acc)
               (nullish_zero (usage ≫= cache_read_input_tokens)) |}.

(** [map.set(key, (map.get(key) || 0) + 1)] *)
Definition increment `{Countable K} (key : K) (counts : gmap K nat)
    : gmap K nat :=
  <[ key := default 0 (counts !! key) + 1 ]> counts.

(** The [childrenCount] map of [calculateConversationStats]. *)
Definition childrenCount (msgs : list (ConversationMessage Num))
    : gmap (option string) nat :=
  foldl (fun counts msg => increment (parentUuid msg) counts) ∅ msgs.

(** [Array.from(childrenCount.values()).filter(count => count > 1).length];
    only the length is used, so the iteration order does not matter. *)
Definition countBranches (counts : gmap (option string) nat) : nat :=
  length (List.filter (fun count => (1 <? count)%nat) (map_to_list counts).*2).

Definition calculateConversationStats conversation
    : ConversationStats Num :=
  let messages := messages conversation in
  match messages with
  | [] =>
      {| messageCount := 0;
         userMessageCount := 0;
         assistantMessageCount := 0;
         totalCostUSD := num_zero;
         totalTokens := zeroTokens;
         averageResponseTimeMs := num_zero;
         conversationDurationMs := num_zero;
         toolUsageCount := 0;
         models := ∅;
         branches := 0 |}
  | _ :: _ =>
      let assistantMessages := List.filter isAssistantMessage messages in
      let userMessages := List.filter isUserMessage messages in
      let totalTokens := foldl addTokens zeroTokens assistantMessages in
      let models :=
        foldl (fun models msg => increment (msg_model msg) models)
              ∅ assistantMessages in
      let toolUsageCount :=
        foldl (fun count msg =>
                 count + length (List.filter isToolUseContent
                                             (msg_content msg)))
              0 assistantMessages
        + length (List.filter hasToolResult userMessages) in
      let timestamps :=
        map (fun m => Date_getTime (timestamp m)) messages in
      let conversationDurationMs :=
        num_sub (Math_max timestamps) (Math_min timestamps) in
      let branches := countBranches (childrenCount messages) in
      {| messageCount := length messages;
         userMessageCount := length userMessages;
         assistantMessageCount := length assistantMessages;
         totalCostUSD :=
           foldl (fun sum msg => num_add sum (or_zero (msg_costUSD msg)))
                 num_zero assistantMessages;
         totalTokens := totalTokens;
         averageResponseTimeMs :=
           if (0 <? length assistantMessages)%nat
           then num_div
                  (foldl (fun sum msg =>
                            num_add sum (or_zero (msg_durationMs msg)))
                         num_zero assistantMessages)
                  (num_of_nat (length assistantMessages))
           else num_zero;
         conversationDurationMs := conversationDurationMs;
         toolUsageCount := toolUsageCount;
         models := models;
         branches := branches |}
  end.

(** *** [buildConversationTree] *)

(** The two lookup maps after the [forEach]: [messageMap] and
    [childrenMap]. *)
Definition buildMaps (msgs : list (ConversationMessage Num))
    : gmap string (ConversationMessage Num) *
      gmap (option string) (list (ConversationMessage Num)) :=
  foldl (fun '(messageMap, childrenMap) msg =>
           let siblings := default [] (childrenMap !! parentUuid msg) in
           (<[ uuid msg := msg ]> messageMap,
            <[ parentUuid msg := siblings ++ [msg] ]> childrenMap))
        (∅, ∅) msgs.

(** [buildNode]; [fuel] bounds the depth of the recursion. *)
Fixpoint buildNode (fuel : nat)
    (childrenMap : gmap (option string) (list (ConversationMessage Num)))
    message : option (ConversationNode Num) :=
  match fuel with
  | 0 => None
  | S fuel =>
      let children := default [] (childrenMap !! Some (uuid message)) in
      kids ← mapM (buildNode fuel childrenMap) children;
      Some (Node message kids)
  end.

Definition buildConversationTree (fuel : nat)
    (msgs : list (ConversationMessage Num))
    : option (list (ConversationNode Num)) :=
  let '(messageMap, childrenMap) := buildMaps msgs in
  let roots := default [] (childrenMap !! None) in
  mapM (buildNode fuel childrenMap) roots.

(** Number of nodes of a tree and of a forest, at all depths. *)
Fixpoint nodeCount (n : ConversationNode Num) : nat :=
  match n with
  | Node _ children => S (sum_list (map nodeCount children))
  end.
Definition forestCount (forest : list (ConversationNode Num)) : nat :=
  sum_list (map nodeCount forest).

(** *** [getActiveBranch] *)

(** [new Map(entries)]: a later entry replaces an earlier one with the
    same key. *)
Definition Map_of `{Countable K} {V} (entries : list (K * V)) : gmap K V :=
  foldl (fun m kv => <[ kv.1 := kv.2 ]> m) ∅ entries.

(** The [while] loop; [fuel] bounds the number of iterations. *)
Fixpoint traceBack (fuel : nat)
    (messageMap : gmap string (ConversationMessage Num))
    (currentUuid : option string) (branch : list (ConversationMessage Num))
    : option (list (ConversationMessage Num)) :=
  match fuel with
  | 0 => None
  | S fuel =>
      match currentUuid with
      | None => Some branch
      | Some u =>
          match messageMap !! u with
          | None => Some branch
          | Some message =>
              traceBack fuel messageMap (parentUuid message)
                        (message :: branch)
          end
      end
  end.

Definition getActiveBranch (fuel : nat) conversation
    : option (list (ConversationMessage Num)) :=
  match summaries conversation, messages conversation with
  | [], _ | _, [] => Some []
  | s0 :: _, _ :: _ =>
      let leafUuid := leafUuid s0 in
      let messageMap :=
        Map_of (map (fun m => (uuid m, m)) (messages conversation)) in
      if bool_decide (is_Some (messageMap !! leafUuid))
      then traceBack fuel messageMap (Some leafUuid) []
      else Some (messages conversation)
  end.
End Analyzer.

(** ** The JavaScript runtime under the parser *)

(** What the parser asks of the runtime.  [JSON_parse] returns the decoded
    value or the message of the [SyntaxError]; [in_TypeError key v] is the
    message of the [TypeError] that [key in v] throws when [v] is not an
    object.  Object fields are listed in property order, keys distinct. *)
Class JSRuntime (Num : Type) := {
  String_trim : string -> string;
  JSON_parse : string -> json Num + string;
  JSON_stringify : json Num -> string;
  in_TypeError : string -> json Num -> string;
}.

(** A thrown [Error] instance: constructor name and [message]. *)
Record Exception := {
  exn_name : string;
  exn_message : string;
}.

(** How a call ends. *)
Inductive Outcome (A : Type) :=
  | Returned (a : A)
  | Threw (e : Exception).
Arguments Returned {A} a.
Arguments Threw {A} e.

(** The sequence an async generator produces: values, then a normal end or
    a thrown exception. *)
Inductive Generator (A : Type) :=
  | Yield (a : A) (next : Generator A)
  | Done
  | Raise (e : Exception).
Arguments Yield {A} a next.
Arguments Done {A}.
Arguments Raise {A} e.

Fixpoint yielded {A} (g : Generator A) : list A :=
  match g with
  | Yield a next => a :: yielded next
  | Done | Raise _ => []
  end.

Fixpoint raised {A} (g : Generator A) : option Exception :=
  match g with
  | Yield _ next => raised next
  | Done => None
  | Raise e => Some e
  end.

(** *** String helpers *)

(** [s.includes(needle)] *)
Fixpoint includes (needle s : string) : bool :=
  String.prefix needle s ||
  match s with
  | EmptyString => false
  | String _ s' => includes needle s'
  end.

Definition is_digit (c : ascii) : bool :=
  ((48 <=? nat_of_ascii c) && (nat_of_ascii c <=? 57))%nat.

Fixpoint leading_digits (s : string) : string :=
  match s with
  | String c s' => if is_digit c then String c (leading_digits s') else ""
  | EmptyString => ""
  end.

Fixpoint strip_prefix (p s : string) : option string :=
  match p, s with
  | EmptyString, _ => Some s
  | String a p', String b s' =>
      if bool_decide (a = b) then strip_prefix p' s' else None
  | String _ _, EmptyString => None
  end.

(** [s.match(/line (\d+)/)]: capture group 1 of the leftmost match. *)
Fixpoint match_line_digits (s : string) : option string :=
  let here :=
    match strip_prefix "line " s with
    | Some r =>
        match leading_digits r with
        | EmptyString => None
        | d => Some d
        end
    | None => None
    end in
  match here, s with
  | Some d, _ => Some d
  | None, String _ s' => match_line_digits s'
  | None, EmptyString => None
  end.

(** [parseInt(digits, 10)] on a string of decimal digits. *)
Definition parseInt (digits : string) : nat :=
  foldl (fun acc c => 10 * acc + (nat_of_ascii c - 48)) 0
        (list_ascii_of_string digits).

(** *** Dynamic checks on decoded values ([type-guards.ts]) *)

Section Parser.
Context {Num : Type} `{!JSRuntime Num}.
Implicit Types (entry v : json Num).

Definition typeof v : string :=
  match v with
  | JBool _ => "boolean"
  | JNum _ => "number"
  | JStr _ => "string"
  | JNull | JArr _ | JObj _ => "object"
  end.

Definition is_null v : bool :=
  match v with JNull => true | _ => false end.

(** [v[key]] for a key that no prototype defines and that is not an
    array index; [None] is [undefined].  (The guards read a property only
    after testing that the entry is not null.) *)
Definition get_property (key : string) v : option (json Num) :=
  match v with
  | JObj fields =>
      snd <$> List.find (fun kv => bool_decide (kv.1 = key)) fields
  | _ => None
  end.

(** [key in v], for such a key: a [TypeError] unless [v] is an object. *)
Definition in_operator (key : string) v : Outcome bool :=
  match v with
  | JObj _ | JArr _ => Returned (bool_decide (is_Some (get_property key v)))
  | _ => Threw {| exn_name := "TypeError";
                  exn_message := in_TypeError key v |}
  end.

(** [x === s] for a string literal [s]. *)
Definition strict_equals (x : option (json Num)) (s : string) : bool :=
  match x with
  | Some (JStr t) => bool_decide (t = s)
  | _ => false
  end.

(** [a && b] where evaluating an operand may throw. *)
Definition and_then (a : Outcome bool) (b : Outcome bool) : Outcome bool :=
  match a with
  | Returned true => b
  | Returned false => Returned false
  | Threw e => Threw e
  end.

Definition isSummaryMessage entry : Outcome bool :=
  and_then (Returned (bool_decide (typeof entry = "object")))
 (and_then (Returned (negb (is_null entry)))
 (and_then (in_operator "type" entry)
           (Returned (strict_equals (get_property "type" entry)
                                    "summary")))).

Definition isConversationMessage entry : Outcome bool :=
  and_then (in_operator "uuid" entry)
           (Returned (strict_equals (get_property "type" entry) "user" ||
                      strict_equals (get_property "type" entry)
                                    "assistant")).

(** *** [readConversationLines] *)

(** [lines] are the lines readline delivers after the current one;
    [lineNumber] counts the lines already read. *)
Fixpoint readLinesFrom (lineNumber : nat) (lines : list string)
    : Generator (json Num) :=
  match lines with
  | [] => Done
  | line :: rest =>
      let lineNumber := S lineNumber in
      if bool_decide (String_trim line = "")
      then readLinesFrom lineNumber rest
      else match JSON_parse line with
           | inl entry => Yield entry (readLinesFrom lineNumber rest)
           | inr message =>
               Raise {| exn_name := "Error";
                        exn_message := "Failed to parse line " +:+
                                       pretty lineNumber +:+ ": " +:+
                                       message |}
           end
  end.

Definition readConversationLines (lines : list string)
    : Generator (json Num) :=
  readLinesFrom 0 lines.

(** *** [parseConversation] *)

Abbreviation Assembly := (ParsedConversation (json Num) (json Num)).

Definition pushSummary (st : Assembly) entry : Assembly :=
  {| summaries := summaries st ++ [entry]; messages := messages st;
     filePath := filePath st; lineCount := lineCount st;
     parseErrors := parseErrors st |}.
Definition pushMessage (st : Assembly) entry : Assembly :=
  {| summaries := summaries st; messages := messages st ++ [entry];
     filePath := filePath st; lineCount := lineCount st;
     parseErrors := parseErrors st |}.
Definition pushError (st : Assembly) (e : ParseError) : Assembly :=
  {| summaries := summaries st; messages := messages st;
     filePath := filePath st; lineCount := lineCount st;
     parseErrors := parseErrors st ++ [e] |}.
Definition countLine (st : Assembly) : Assembly :=
  {| summaries := summaries st; messages := messages st;
     filePath := filePath st; lineCount := S (lineCount st);
     parseErrors := parseErrors st |}.

(** The [for await] loop inside the [try]: the variables when the block
    is left, and the exception that left it, if any. *)
Fixpoint forAwait (g : Generator (json Num)) (st : Assembly)
    : Assembly * option Exception :=
  match g with
  | Done => (st, None)
  | Raise e => (st, Some e)
  | Yield entry next =>
      let st := countLine st in
      match isSummaryMessage entry with
      | Threw e => (st, Some e)
      | Returned true => forAwait next (pushSummary st entry)
      | Returned false =>
          match isConversationMessage entry with
          | Threw e => (st, Some e)
          | Returned true => forAwait next (pushMessage st entry)
          | Returned false =>
              forAwait next
                (pushError st {| line := lineCount st;
                                 error := "Unknown entry type";
                                 content := JSON_stringify entry |})
          end
      end
  end.

(** The [catch] block; every exception of the model is an [Error]
    instance. *)
Definition catchBlock (st : Assembly) (error : Exception)
    : Outcome Assembly :=
  if includes "Failed to parse line" (exn_message error)
  then match match_line_digits (exn_message error) with
       | Some digits =>
           Returned (pushError st {| line := parseInt digits;
                                     error := exn_message error;
                                     content := "" |})
       | None => Returned st
       end
  else Threw error.

(** [lines] is the content of the file at [filePath], line by line. *)
Definition parseConversation (filePath : string) (lines : list string)
    : Outcome Assembly :=
  let init :=
    {| summaries := []; messages := []; filePath := filePath;
       lineCount := 0; parseErrors := [] |} in
  match forAwait (readConversationLines lines) init with
  | (st, None) => Returned st
  | (st, Some error) => catchBlock st error
  end.

(** *** Vocabulary for the properties *)

(** A line the decoder does not skip. *)
Definition nonBlank (line : string) : bool :=
  negb (bool_decide (String_trim line = "")).

(** The non-blank line decodes. *)
Definition decodes (line : string) : Prop :=
  nonBlank line = true → ∃ entry, JSON_parse line = inl entry.

(** Objects and arrays, the values on which [in] is defined. *)
Definition isObject v : bool :=
  match v with
  | JObj _ | JArr _ => true
  | _ => false
  end.

(** The entries of the non-blank lines that decode, in file order. *)
Definition decoded (lines : list string) : list (json Num) :=
  omap (fun line =>
          if nonBlank line
          then match JSON_parse line with
               | inl entry => Some entry
               | inr _ => None
               end
          else None)
       lines.

(** The bucket of an entry on which neither guard throws. *)
Definition recognizedSummary entry : bool :=
  match isSummaryMessage entry with
  | Returned b => b
  | Threw _ => false
  end.
Definition recognizedMessage entry : bool :=
  negb (recognizedSummary entry) &&
  match isConversationMessage entry with
  | Returned b => b
  | Threw _ => false
  end.
Definition unrecognized entry : bool :=
  negb (recognizedSummary entry) && negb (recognizedMessage entry).

Definition unknownEntryError (lineCount : nat) entry : ParseError :=
  {| line := lineCount;
     error := "Unknown entry type";
     content := JSON_stringify entry |}.

(** The [TypeError] of ["uuid" in v]. *)
Definition uuidTypeError v : Exception :=
  {| exn_name := "TypeError"; exn_message := in_TypeError "uuid" v |}.
End Parser.

(** ** The read stream under the decoder *)

(** What readline delivers for a path: lines, then the end of the file, or
    an error of the read stream (a file that cannot be opened fails before
    its first line). *)
Inductive LineSource :=
  | NextLine (line : string) (rest : LineSource)
  | EndOfFile
  | StreamError (e : Exception).

Fixpoint sourceOfLines (lines : list string) : LineSource :=
  match lines with
  | [] => EndOfFile
  | line :: rest => NextLine line (sourceOfLines rest)
  end.

(** The error that ends the stream, if any. *)
Fixpoint streamError (source : LineSource) : option Exception :=
  match source with
  | NextLine _ rest => streamError rest
  | EndOfFile => None
  | StreamError e => Some e
  end.

Section StreamParser.
Context {Num : Type} `{!JSRuntime Num}.

(** [readConversationLines] over the stream: an error of the stream
    leaves the [for await] of the generator as it is, outside the [try]
    around [JSON.parse]. *)
Fixpoint readSourceFrom (lineNumber : nat) (source : LineSource)
    : Generator (json Num) :=
  match source with
  | EndOfFile => Done
  | StreamError e => Raise e
  | NextLine line rest =>
      let lineNumber := S lineNumber in
      if bool_decide (String_trim line = "")
      then readSourceFrom lineNumber rest
      else match JSON_parse line with
           | inl entry => Yield entry (readSourceFrom lineNumber rest)
           | inr message =>
               Raise {| exn_name := "Error";
                        exn_message := "Failed to parse line " +:+
                                       pretty lineNumber +:+ ": " +:+
                                       message |}
           end
  end.

(** [parseConversation] over the stream of [filePath]. *)
Definition parseConversationFrom (filePath : string) (source : LineSource)
    : Outcome (ParsedConversation (json Num) (json Num)) :=
  let init :=
    {| summaries := []; messages := []; filePath := filePath;
       lineCount := 0; parseErrors := [] |} in
  match forAwait (readSourceFrom 0 source) init with
  | (st, None) => Returned st
  | (st, Some error) => catchBlock st error
  end.
End StreamParser.

(** ** Parent links *)

Section ParentGraph.
Context {Num : Type}.
Implicit Types (m : ConversationMessage Num)
               (msgs : list (ConversationMessage Num)).

(** The identifier map of [getActiveBranch]. *)
Definition messageMapOf msgs : gmap string (ConversationMessage Num) :=
  Map_of (map (fun m => (uuid m, m)) msgs).

(** [parentLink msgs child parent]: both are messages of the list and
    [child.parentUuid] is [parent.uuid]. *)
Definition parentLink msgs : relation (ConversationMessage Num) :=
  fun child parent =>
    child ∈ msgs ∧ parent ∈ msgs ∧ parentUuid child = Some (uuid parent).

(** No message is its own ancestor. *)
Definition acyclic msgs : Prop := ∀ m, ¬ tc (parentLink msgs) m m.

(** [m.parentUuid] is non-null and is the [uuid] of no message. *)
Definition orphaned msgs m : bool :=
  match parentUuid m with
  | Some p => bool_decide (p ∉ uuid <$> msgs)
  | None => false
  end.

(** The first message of the list with the given identifier. *)
Definition findMessage msgs (u : string) : option (ConversationMessage Num) :=
  List.find (fun q => bool_decide (uuid q = u)) msgs.

(** [atDepth msgs k m]: following [parentUuid] from [m] reaches a
    message without parent after exactly [k] steps. *)
Fixpoint atDepth msgs (k : nat) m : bool :=
  match k, parentUuid m with
  | 0, None => true
  | S k, Some p =>
      match findMessage msgs p with
      | Some q => atDepth msgs k q
      | None => false
      end
  | _, _ => false
  end.

(** The parent chain of [m] ends at a root of the forest. *)
Definition rooted msgs m : bool :=
  existsb (fun k => atDepth msgs k m) (seq 0 (length msgs)).

(** How many messages name [p] as their parent. *)
Definition occurrences (p : option string) msgs : nat :=
  length (List.filter (fun m => bool_decide (parentUuid m = p)) msgs).

(** The messages naming [p] as parent, in list order: what
    [childrenMap.get(p) || []] holds in [buildConversationTree]. *)
Definition childrenOf msgs (p : option string)
    : list (ConversationMessage Num) :=
  filter (fun m => parentUuid m = p) msgs.

(** The children of the messages of [L], parent by parent. *)
Definition nextLevel msgs (L : list (ConversationMessage Num))
    : list (ConversationMessage Num) :=
  L ≫= (fun m => childrenOf msgs (Some (uuid m))).

(** The messages [k] levels below [L] in the forest. *)
Fixpoint level msgs (k : nat) (L : list (ConversationMessage Num))
    : list (ConversationMessage Num) :=
  match k with
  | 0 => L
  | S k => level msgs k (nextLevel msgs L)
  end.

(** The messages at depth [k]. *)
Definition depthLevel msgs (k : nat) : list (ConversationMessage Num) :=
  filter (fun m => atDepth msgs k m) msgs.
End ParentGraph.

(** ** Vocabulary for further properties *)

(** The exception [readConversationLines] throws at a line that does not
    decode. *)
Definition decodeError (lineNumber : nat) (message : string) : Exception :=
  {| exn_name := "Error";
     exn_message := "Failed to parse line " +:+ pretty lineNumber +:+ ": " +:+
                    message |}.

Section Vocabulary.
Context {Num : Type}.
Implicit Types (m : ConversationMessage Num)
               (msgs : list (ConversationMessage Num)).

Definition nodeMessage (n : ConversationNode Num) : ConversationMessage Num :=
  match n with Node message _ => message end.

Definition nodeChildren (n : ConversationNode Num)
    : list (ConversationNode Num) :=
  match n with Node _ children => children end.

(** The nodes of a tree at all depths, the root first. *)
Fixpoint allNodes (n : ConversationNode Num) : list (ConversationNode Num) :=
  match n with
  | Node _ children => n :: concat (map allNodes children)
  end.

(** Each message of the list names the one before it as parent. *)
Fixpoint chained (branch : list (ConversationMessage Num)) : Prop :=
  match branch with
  | x :: rest =>
      match rest with
      | y :: _ => parentUuid y = Some (uuid x)
      | [] => True
      end ∧ chained rest
  | [] => True
  end.

(** How many assistant messages of the list use the model [name]. *)
Definition modelUses (name : string) msgs : nat :=
  length (List.filter
            (fun m => isAssistantMessage m &&
                      bool_decide (msg_model m = name)) msgs).
End Vocabulary.

(** ** Example data *)

Module Examples.
(** An integer stand-in for the number operations, to run the
    definitions on examples; a timestamp is read as its length. *)
#[export] Instance Z_number : JSNumber Z := {|
  num_zero := 0%Z;
  num_add := Z.add;
  num_sub := Z.sub;
  num_div := Z.div;
  num_of_nat := Z.of_nat;
  num_falsy := Z.eqb 0%Z;
  Math_max := foldr Z.max 0%Z;
  Math_min := foldr Z.min 0%Z;
  Date_getTime := fun s => Z.of_nat (String.length s);
|}.

(** A fragment of Node's runtime, enough to run the parser on the
    lines of the examples: [trim] for ASCII white space, [JSON.parse] on
    the lines listed in [parse_table] (any other line is reported as
    malformed), [JSON.stringify] without string escapes, and V8's text
    for the [TypeError] of [in]. *)
Definition dq : string := String (ascii_of_nat 34) "".
Definition quoted (s : string) : string := dq +:+ s +:+ dq.

Definition is_space (c : ascii) : bool :=
  bool_decide (nat_of_ascii c ∈ [9; 10; 11; 12; 13; 32]).

Fixpoint trim_start (s : string) : string :=
  match s with
  | String c s' => if is_space c then trim_start s' else s
  | EmptyString => ""
  end.

Definition trim (s : string) : string :=
  String.rev (trim_start (String.rev (trim_start s))).

Fixpoint join (sep : string) (parts : list string) : string :=
  match parts with
  | [] => ""
  | [x] => x
  | x :: rest => x +:+ sep +:+ join sep rest
  end.

Fixpoint stringify (v : json Z) : string :=
  match v with
  | JNull => "null"
  | JBool b => if b then "true" else "false"
  | JNum n => pretty n
  | JStr s => quoted s
  | JArr items => "[" +:+ join "," (map stringify items) +:+ "]"
  | JObj fields =>
      "{" +:+
      join "," (map (fun kv => quoted (fst kv) +:+ ":" +:+ stringify (snd kv))
                    fields) +:+
      "}"
  end.

Definition display (v : json Z) : string :=
  match v with
  | JStr s => s
  | _ => stringify v
  end.

Definition summary_m2 : json Z :=
  JObj [("type", JStr "summary"); ("summary", JStr "s");
        ("leafUuid", JStr "m2")].
Definition user_m1 : json Z :=
  JObj [("type", JStr "user"); ("uuid", JStr "m1"); ("parentUuid", JNull)].
Definition ping : json Z := JObj [("type", JStr "ping")].

Definition parse_table : list (string * json Z) :=
  [ ("null", JNull); ("42", JNum 42%Z); ("[]", JArr []);
    (quoted "Failed to parse line 7", JStr "Failed to parse line 7");
    (stringify summary_m2, summary_m2);
    (stringify user_m1, user_m1);
    (stringify ping, ping) ].

Definition parse (line : string) : json Z + string :=
  match List.find (fun kv => String.eqb (fst kv) (trim line)) parse_table with
  | Some kv => inl (snd kv)
  | None => inr "Unexpected token in JSON"
  end.

#[export] Instance node_fragment : JSRuntime Z := {|
  String_trim := trim;
  JSON_parse := parse;
  JSON_stringify := stringify;
  in_TypeError := fun key v =>
    "Cannot use 'in' operator to search for '" +:+ key +:+ "' in " +:+
    display v;
|}.

(** A user message with the given identifier and parent. *)
Definition msg (u : string) (p : option string) : ConversationMessage Z :=
  UserMessage
    {| base_uuid := u; base_parentUuid := p;
       base_timestamp := "2025-05-01T10:00:00.000Z";
       base_sessionId := "session"; base_version := "1.0.3";
       base_cwd := "/work"; base_isSidechain := false |}
    (UserText "hello") None.

Definition conv (ss : list SummaryMessage)
    (ms : list (ConversationMessage Z)) : Conversation Z :=
  {| summaries := ss; messages := ms; filePath := "log.jsonl";
     lineCount := length ss + length ms; parseErrors := [] |}.

Definition leaf (u : string) : SummaryMessage :=
  {| summary := "s"; leafUuid := u |}.

Definition root := msg "root" None.
Definition A := msg "a" (Some "root").
Definition B := msg "b" (Some "a").
Definition C := msg "c" (Some "b").
(** A second message carrying the identifier of [C]. *)
Definition C' := msg "c" None.
End Examples.

(** * Properties *)

(** ** [Map_of] *)

Section MapOf.
Context `{Countable K} {V : Type}.
Implicit Types (entries : list (K * V)).

Lemma Map_of_snoc entries k v :
  Map_of (entries ++ [(k, v)]) = <[ k := v ]> (Map_of entries).
Proof. unfold Map_of. by rewrite foldl_app. Qed.

Lemma Map_of_lookup_Some entries k v :
  Map_of entries !! k = Some v → (k, v) ∈ entries.
Proof.
  induction entries as [|[k' v'] entries IH] using rev_ind.
  - unfold Map_of. simpl. by rewrite lookup_empty.
  - rewrite Map_of_snoc, elem_of_app, list_elem_of_singleton.
    destruct (decide (k' = k)) as [->|Hne].
    + rewrite lookup_insert_eq. intros [= ->]. by right.
    + rewrite lookup_insert_ne by done. auto.
Qed.

Lemma Map_of_lookup_None entries k :
  Map_of entries !! k = None ↔ k ∉ entries.*1.
Proof.
  induction entries as [|[k' v'] entries IH] using rev_ind.
  - unfold Map_of. simpl. rewrite lookup_empty.
    split; [intros _; apply not_elem_of_nil | done].
  - rewrite Map_of_snoc, fmap_app, elem_of_app. simpl.
    rewrite list_elem_of_singleton.
    destruct (decide (k' = k)) as [->|Hne].
    + rewrite lookup_insert_eq. split; [done | intros []; by right].
    + rewrite lookup_insert_ne by done. rewrite IH. split.
      * intros Hn [Hin | ->]; [by apply Hn | done].
      * intros Hn Hin. apply Hn. by left.
Qed.

Lemma Map_of_lookup_NoDup entries k v :
  NoDup entries.*1 → (k, v) ∈ entries → Map_of entries !! k = Some v.
Proof.
  induction entries as [|[k' v'] entries IH] using rev_ind.
  - intros _ Hin. by apply elem_of_nil in Hin.
  - rewrite fmap_app, NoDup_app, Map_of_snoc, elem_of_app.
    rewrite list_elem_of_singleton. simpl.
    intros (Hnd & Hfresh & _) [Hin | [= -> ->]].
    + rewrite lookup_insert_ne; [by apply IH |].
      intros ->. apply (Hfresh k).
      * by apply (list_elem_of_fmap_2 fst _ (k, v)).
      * apply list_elem_of_here.
    + apply lookup_insert_eq.
Qed.
End MapOf.

(** ** Active-branch resolver *)

Section ActiveBranch.
Context {Num : Type}.
Implicit Types (m : ConversationMessage Num)
               (msgs : list (ConversationMessage Num))
               (conversation : Conversation Num).

Lemma messageMapOf_Some msgs u m :
  messageMapOf msgs !! u = Some m → m ∈ msgs ∧ uuid m = u.
Proof.
  intros Hm%Map_of_lookup_Some.
  apply list_elem_of_fmap in Hm as (m' & [= -> ->] & Hin). done.
Qed.

Lemma messageMapOf_None msgs u :
  messageMapOf msgs !! u = None ↔ ∀ m, m ∈ msgs → uuid m ≠ u.
Proof.
  unfold messageMapOf. rewrite Map_of_lookup_None.
  rewrite <- list_fmap_compose. split.
  - intros Hnot m Hin Heq. apply Hnot.
    apply list_elem_of_fmap. by exists m.
  - intros Hall (m & -> & Hin)%list_elem_of_fmap. by apply (Hall m).
Qed.

Lemma messageMapOf_NoDup msgs m :
  NoDup (uuid <$> msgs) → m ∈ msgs → messageMapOf msgs !! uuid m = Some m.
Proof.
  intros Hnd Hin. apply Map_of_lookup_NoDup.
  - by rewrite <- list_fmap_compose.
  - apply list_elem_of_fmap. by exists m.
Qed.

(** Whatever the loop returns was taken from the map or was already in
    the branch. *)
Lemma traceBack_members msgs fuel cur branch result :
  traceBack fuel (messageMapOf msgs) cur branch = Some result →
  (∀ m, m ∈ branch → m ∈ msgs) →
  ∀ m, m ∈ result → m ∈ msgs.
Proof.
  revert cur branch.
  induction fuel as [|fuel IH]; intros cur branch; simpl; [done |].
  destruct cur as [u|]; [| by intros [= ->]].
  destruct (messageMapOf msgs !! u) as [message|] eqn:Hu;
    [| by intros [= ->]].
  intros Hrun Hbranch. eapply IH; [exact Hrun |].
  intros m [-> | Hin]%elem_of_cons; [| by apply Hbranch].
  by apply messageMapOf_Some in Hu as [? _].
Qed.

(** Without a cycle the loop ends before the fuel does: [seen] are the
    messages visited so far, each a descendant of the current one. *)
Lemma traceBack_terminates msgs fuel cur branch seen :
  acyclic msgs →
  NoDup seen →
  (∀ x, x ∈ seen → x ∈ msgs) →
  (∀ x m, x ∈ seen → cur = Some (uuid m) → m ∈ msgs →
          tc (parentLink msgs) x m) →
  length msgs < fuel + length seen →
  is_Some (traceBack fuel (messageMapOf msgs) cur branch).
Proof.
  intros Hacyc. revert cur branch seen.
  induction fuel as [|fuel IH]; intros cur branch seen Hnd Hsub Hdesc Hlen.
  - exfalso. simpl in Hlen.
    assert (length seen ≤ length msgs); [| lia].
    apply submseteq_length, NoDup_submseteq; done.
  - simpl. destruct cur as [u|]; [| by eexists].
    destruct (messageMapOf msgs !! u) as [message|] eqn:Hu; [| by eexists].
    apply messageMapOf_Some in Hu as [Hin <-].
    assert (message ∉ seen) as Hfresh.
    { intros Hseen. apply (Hacyc message). by apply Hdesc. }
    apply (IH _ _ (message :: seen)).
    + by constructor.
    + intros x [-> | Hx]%elem_of_cons; auto.
    + intros x m Hx Hcur Hm.
      assert (parentLink msgs message m) as Hlink by done.
      apply elem_of_cons in Hx as [-> | Hx].
      * by apply tc_once.
      * eapply tc_r; [| exact Hlink]. by apply Hdesc.
    + simpl. lia.
Qed.

(** A rank that grows along every parent link excludes cycles. *)
Lemma acyclic_ranked msgs (rank : ConversationMessage Num → nat) :
  (∀ child parent, parentLink msgs child parent →
                   rank child < rank parent) →
  acyclic msgs.
Proof.
  intros Hrank m Hcycle.
  assert (∀ x y, tc (parentLink msgs) x y → rank x < rank y) as Hlt.
  { induction 1 as [x y Hxy | x y z Hxy _ IH].
    - by apply Hrank.
    - apply Hrank in Hxy. lia. }
  apply Hlt in Hcycle. lia.
Qed.
End ActiveBranch.

Section ActiveBranchClaims.
Context {Num : Type}.
Implicit Types (m : ConversationMessage Num)
               (conversation : Conversation Num).

(** C6. With at least one summary and one message, when no message
    carries the first summary's [leafUuid], [getActiveBranch] returns the
    whole [messages] list as it is; when [summaries] or [messages] is
    empty it returns the empty list.  Neither case enters the loop, so
    the result does not depend on the fuel. *)
Theorem getActiveBranch_fallbacks (fuel : nat) conversation :
  (∀ s0, head (summaries conversation) = Some s0 →
         messages conversation ≠ [] →
         (∀ m, m ∈ messages conversation → uuid m ≠ leafUuid s0) →
         getActiveBranch fuel conversation = Some (messages conversation))
  ∧ (summaries conversation = [] ∨ messages conversation = [] →
     getActiveBranch fuel conversation = Some []).
Proof.
  unfold getActiveBranch. split.
  - intros s0 Hs0 Hne Hnone.
    destruct (summaries conversation) as [|s ss]; [done |].
    injection Hs0 as ->.
    destruct (messages conversation) as [|m0 ms] eqn:Hms; [done |].
    rewrite bool_decide_eq_false_2; [done |].
    rewrite <- eq_None_not_Some. by apply messageMapOf_None.
  - intros [-> | ->]; [done |]. by destruct (summaries conversation).
Qed.

(** C4 (amended). In a conversation whose message identifiers are
    pairwise distinct and which contains the chain root, A, B, C (root
    without parent, each next one naming the previous one as parent),
    with the first summary's [leafUuid] naming C, [getActiveBranch]
    returns exactly [root; A; B; C]: five iterations of the loop
    suffice. *)
Theorem getActiveBranch_chain (fuel : nat) conversation s0 root A B C :
  head (summaries conversation) = Some s0 →
  NoDup (uuid <$> messages conversation) →
  root ∈ messages conversation → A ∈ messages conversation →
  B ∈ messages conversation → C ∈ messages conversation →
  parentUuid root = None →
  parentUuid A = Some (uuid root) →
  parentUuid B = Some (uuid A) →
  parentUuid C = Some (uuid B) →
  leafUuid s0 = uuid C →
  5 ≤ fuel →
  getActiveBranch fuel conversation = Some [root; A; B; C].
Proof.
  intros Hs0 Hnd Hroot HA HB HC Proot PA PB PC Hleaf Hfuel.
  pose proof (messageMapOf_NoDup _ _ Hnd Hroot) as Lroot.
  pose proof (messageMapOf_NoDup _ _ Hnd HA) as LA.
  pose proof (messageMapOf_NoDup _ _ Hnd HB) as LB.
  pose proof (messageMapOf_NoDup _ _ Hnd HC) as LC.
  unfold getActiveBranch.
  destruct (summaries conversation) as [|s ss]; [done |].
  injection Hs0 as ->.
  destruct (messages conversation) as [|m0 ms] eqn:Hms;
    [by apply elem_of_nil in HC |].
  fold (messageMapOf (m0 :: ms)). rewrite Hleaf, LC.
  rewrite bool_decide_eq_true_2 by by eexists.
  do 5 (destruct fuel as [|fuel]; [lia |]). simpl.
  by rewrite LC, PC, LB, PB, LA, PA, Lroot, Proot.
Qed.

(** C10. When no message is its own ancestor, [getActiveBranch] returns
    (more fuel than there are messages is enough), and every message of
    the returned list is an element of [conversation.messages], in the
    walk, in the fallback and in the empty case alike. *)
Theorem getActiveBranch_members (fuel : nat) conversation :
  acyclic (messages conversation) →
  length (messages conversation) < fuel →
  ∃ branch, getActiveBranch fuel conversation = Some branch ∧
            ∀ m, m ∈ branch → m ∈ messages conversation.
Proof.
  intros Hacyc Hfuel. unfold getActiveBranch.
  destruct (summaries conversation) as [|s0 ss].
  { exists []. split; [done |]. by intros m ?%elem_of_nil. }
  destruct (messages conversation) as [|m0 ms] eqn:Hms.
  { exists []. split; [done |]. by intros m ?%elem_of_nil. }
  fold (messageMapOf (m0 :: ms)). case_bool_decide; [| by eexists].
  destruct (traceBack_terminates (m0 :: ms) fuel (Some (leafUuid s0)) [] [])
    as [branch Hrun].
  - done.
  - constructor.
  - by intros x ?%elem_of_nil.
  - by intros x m ?%elem_of_nil.
  - simpl in *. lia.
  - exists branch. split; [done |].
    eapply traceBack_members; [exact Hrun |]. by intros m ?%elem_of_nil.
Qed.
End ActiveBranchClaims.

Section ActiveBranchExamples.
Import Examples.

Lemma getActiveBranch_fallbacks_witness :
  getActiveBranch 0 (conv [leaf "gone"] [root; A]) = Some [root; A] ∧
  getActiveBranch 0 (conv [] [root; A]) = Some [].
Proof.
  split.
  - apply (proj1 (getActiveBranch_fallbacks 0 (conv [leaf "gone"] [root; A]))
                 (leaf "gone")).
    + reflexivity.
    + discriminate.
    + intros m Hm. apply elem_of_cons in Hm as [-> | Hm]; [discriminate |].
      apply elem_of_cons in Hm as [-> | Hm]; [discriminate |].
      by apply elem_of_nil in Hm.
  - apply (proj2 (getActiveBranch_fallbacks 0 (conv [] [root; A]))).
    left. reflexivity.
Defined.

Lemma getActiveBranch_chain_witness :
  getActiveBranch 5 (conv [leaf "c"] [B; root; C; A]) = Some [root; A; B; C].
Proof.
  apply (getActiveBranch_chain 5 (conv [leaf "c"] [B; root; C; A]) (leaf "c"));
    try reflexivity; try lia.
  - apply (bool_decide_unpack _). vm_compute. exact I.
  - simpl. repeat constructor.
  - simpl. repeat constructor.
  - simpl. repeat constructor.
  - simpl. repeat constructor.
Defined.

(** The claim of C4 without distinct identifiers: the conversation
    contains the chain root, A, B, C and the summary names C, but a later
    message carries the identifier of C and the map resolves to it. *)
Lemma getActiveBranch_chain_counterexample :
  let conversation := conv [leaf "c"] [root; A; B; C; C'] in
  (head (summaries conversation) = Some (leaf "c") ∧
   root ∈ messages conversation ∧ A ∈ messages conversation ∧
   B ∈ messages conversation ∧ C ∈ messages conversation ∧
   parentUuid root = None ∧ parentUuid A = Some (uuid root) ∧
   parentUuid B = Some (uuid A) ∧ parentUuid C = Some (uuid B) ∧
   leafUuid (leaf "c") = uuid C) ∧
  (∀ fuel, 2 ≤ fuel → getActiveBranch fuel conversation = Some [C']) ∧
  (∀ fuel, getActiveBranch fuel conversation ≠ Some [root; A; B; C]).
Proof.
  assert (∀ fuel, 2 ≤ fuel →
    getActiveBranch fuel (conv [leaf "c"] [root; A; B; C; C']) = Some [C'])
    as Hrun.
  { intros fuel Hfuel. do 2 (destruct fuel as [|fuel]; [lia |]).
    reflexivity. }
  split; [| split; [exact Hrun |]].
  - simpl. repeat split; repeat constructor.
  - intros [|[|fuel]]; [discriminate | discriminate |].
    rewrite Hrun by lia. discriminate.
Qed.

Lemma getActiveBranch_members_witness :
  ∃ branch,
    getActiveBranch 3 (conv [leaf "a"] [A; root]) = Some branch ∧
    ∀ m, m ∈ branch → m ∈ [A; root].
Proof.
  apply (getActiveBranch_members 3 (conv [leaf "a"] [A; root]));
    [| simpl; lia].
  apply (acyclic_ranked _ (fun m => String.length (uuid m))).
  intros x y (Hx & Hy & Hp). simpl in Hx, Hy.
  apply elem_of_cons in Hx as [-> | Hx];
    apply elem_of_cons in Hy as [-> | Hy]; try discriminate.
  - apply elem_of_cons in Hy as [-> | Hy]; [simpl; lia |].
    by apply elem_of_nil in Hy.
  - apply elem_of_cons in Hx as [-> | Hx]; [discriminate |].
    by apply elem_of_nil in Hx.
  - apply elem_of_cons in Hx as [-> | Hx]; [| by apply elem_of_nil in Hx].
    apply elem_of_cons in Hy as [-> | Hy]; [discriminate |].
    by apply elem_of_nil in Hy.
Defined.
End ActiveBranchExamples.

(** ** Structural validator *)

Section ValidatorLemmas.
Context {Num : Type}.
Implicit Types (m : ConversationMessage Num)
               (msgs pre rest : list (ConversationMessage Num))
               (result : Conversation Num).

(** The first pass, started after the prefix [pre] with the identifiers
    of [pre] in the set. *)
Lemma duplicatePass_spec offset pre rest (ids : gset string) errs :
  (∀ u, u ∈ ids ↔ u ∈ uuid <$> pre) →
  ∃ ids',
    duplicatePass offset (length pre) rest ids errs =
      (ids',
       errs ++ concat (imap (fun i m =>
                 if bool_decide
                      (uuid m ∈ uuid <$> take (length pre + i) (pre ++ rest))
                 then [duplicateError offset (length pre + i) m] else [])
               rest)) ∧
    ∀ u, u ∈ ids' ↔ u ∈ uuid <$> pre ++ rest.
Proof.
  revert pre ids errs.
  induction rest as [|m rest IH]; intros pre ids errs Hids; simpl.
  - exists ids. by rewrite !app_nil_r.
  - rewrite Nat.add_0_r, take_app_length.
    edestruct (IH (pre ++ [m]) ({[uuid m]} ∪ ids)) as (ids' & Hrun & Hids').
    { intros u. rewrite fmap_app, elem_of_app, elem_of_union, Hids.
      simpl. rewrite list_elem_of_singleton, elem_of_singleton. tauto. }
    rewrite length_app in Hrun. simpl in Hrun.
    rewrite Nat.add_1_r in Hrun. exists ids'.
    rewrite <- (assoc_L (++) pre [m] rest) in Hids'. split; [| exact Hids'].
    rewrite Hrun. f_equal.
    assert (bool_decide (uuid m ∈ ids) =
            bool_decide (uuid m ∈ uuid <$> pre)) as ->
      by by apply bool_decide_ext.
    rewrite <- (assoc_L (++)).
    assert (∀ l1 l2 : list ParseError,
              l1 = l2 → (if bool_decide (uuid m ∈ uuid <$> pre)
                         then errs ++ [duplicateError offset
                                         (length pre) m]
                         else errs) ++ l1 =
              errs ++ (if bool_decide (uuid m ∈ uuid <$> pre)
                       then [duplicateError offset (length pre) m]
                       else []) ++ l2) as Hshape.
    { intros l1 l2 ->.
      destruct (bool_decide (uuid m ∈ uuid <$> pre));
        [by rewrite <- (assoc_L (++)) | done]. }
    apply Hshape. f_equal. apply imap_ext. intros i x _. simpl.
    by rewrite Nat.add_succ_r.
Qed.

Lemma duplicatePass_ids result u :
  u ∈ (duplicatePass (length (summaries result)) 0 (messages result) ∅ []).1
  ↔ u ∈ uuid <$> messages result.
Proof.
  destruct (duplicatePass_spec (length (summaries result)) []
              (messages result) ∅ []) as (ids' & Hrun & Hids').
  { intros u'. simpl. rewrite elem_of_nil. set_solver. }
  simpl in Hrun. rewrite Hrun. apply Hids'.
Qed.

Lemma duplicateErrorsOf_spec result :
  duplicateErrorsOf result =
  expectedDuplicates (length (summaries result)) (messages result).
Proof.
  unfold duplicateErrorsOf.
  destruct (duplicatePass_spec (length (summaries result)) []
              (messages result) ∅ []) as (ids' & Hrun & _).
  { intros u'. simpl. rewrite elem_of_nil. set_solver. }
  simpl in Hrun. by rewrite Hrun.
Qed.

(** The second pass only appends. *)
Lemma orphanPass_app offset index msgs ids errs :
  orphanPass offset index msgs ids errs =
  errs ++ orphanPass offset index msgs ids [].
Proof.
  revert index errs.
  induction msgs as [|m msgs IH]; intros index errs; simpl.
  - by rewrite app_nil_r.
  - rewrite IH. symmetry. rewrite IH. symmetry.
    destruct (orphanCheck ids m); simpl; [| done].
    by rewrite <- (assoc_L (++)).
Qed.

Lemma validationErrors_split result :
  validationErrors result =
  duplicateErrorsOf result ++ orphanErrorsOf result.
Proof.
  unfold validationErrors, duplicateErrorsOf, orphanErrorsOf.
  destruct (duplicatePass _ _ _ _ _) as [ids errs]. simpl.
  apply orphanPass_app.
Qed.

Lemma parseAndValidateConversation_errors result :
  parseErrors (parseAndValidateConversation result) =
  parseErrors result ++ duplicateErrorsOf result ++ orphanErrorsOf result.
Proof. simpl. by rewrite validationErrors_split. Qed.
End ValidatorLemmas.

(** Lists assembled position by position. *)
Section ConcatImap.
Context {A B : Type}.
Implicit Types (f : nat → A → list B) (l : list A).

Lemma concat_imap_nil f l :
  (∀ i x, l !! i = Some x → f i x = []) → concat (imap f l) = [].
Proof.
  revert f. induction l as [|a l IH]; intros f Hf; [done |].
  rewrite imap_cons. simpl. rewrite (Hf 0 a) by done. simpl.
  apply IH. intros i x Hi. by apply (Hf (S i)).
Qed.

Lemma concat_imap_single f l k x :
  l !! k = Some x →
  (∀ i y, l !! i = Some y → i ≠ k → f i y = []) →
  concat (imap f l) = f k x.
Proof.
  revert f k. induction l as [|a l IH]; intros f k Hk Hf; [done |].
  rewrite imap_cons. simpl. destruct k as [|k]; simpl in Hk.
  - injection Hk as ->. rewrite concat_imap_nil; [by rewrite app_nil_r |].
    intros i y Hi. by apply (Hf (S i)).
  - rewrite (Hf 0 a) by done. simpl. apply (IH (f ∘ S) k); [done |].
    intros i y Hi Hne. apply (Hf (S i)); [done | lia].
Qed.

Lemma length_concat_imap f (P : A → bool) l :
  (∀ i x, length (f i x) = if P x then 1 else 0) →
  length (concat (imap f l)) = length (List.filter P l).
Proof.
  revert f. induction l as [|a l IH]; intros f Hf; [done |].
  rewrite imap_cons. simpl. rewrite length_app, Hf, (IH (f ∘ S)).
  - by destruct (P a).
  - intros i x. apply Hf.
Qed.
End ConcatImap.

Section ValidatorClaims.
Context {Num : Type}.
Implicit Types (m : ConversationMessage Num)
               (msgs : list (ConversationMessage Num))
               (result : Conversation Num).

Lemma elem_of_earlier_uuids msgs i u :
  u ∈ uuid <$> take i msgs ↔
  ∃ j x, j < i ∧ msgs !! j = Some x ∧ uuid x = u.
Proof.
  rewrite list_elem_of_fmap. split.
  - intros (x & -> & (j & Hj)%list_elem_of_lookup).
    apply lookup_take_Some in Hj as [Hj Hlt]. by exists j, x.
  - intros (j & x & Hlt & Hj & <-). exists x. split; [done |].
    apply list_elem_of_lookup. exists j. by apply lookup_take_Some.
Qed.

(** C5. [parseAndValidateConversation] appends the errors of the first
    pass, then those of the second, to [parseErrors].  The errors of the
    first pass are, in order, one duplicate error for each position whose
    identifier already occurs at an earlier position: every second and
    later occurrence produces one, a first occurrence never does.  In
    particular, when the messages at positions [a < b] are the only two
    sharing an identifier, the single duplicate error is the one for
    position [b]. *)
Theorem duplicate_errors_for_later_occurrences result :
  parseErrors (parseAndValidateConversation result) =
    parseErrors result ++ duplicateErrorsOf result ++ orphanErrorsOf result ∧
  duplicateErrorsOf result =
    expectedDuplicates (length (summaries result)) (messages result) ∧
  ∀ a b m1 m2,
    a < b →
    messages result !! a = Some m1 →
    messages result !! b = Some m2 →
    uuid m1 = uuid m2 →
    (∀ i j x y, i < j →
                messages result !! i = Some x →
                messages result !! j = Some y →
                uuid x = uuid y → i = a ∧ j = b) →
    duplicateErrorsOf result =
      [duplicateError (length (summaries result)) b m2].
Proof.
  split; [apply parseAndValidateConversation_errors |].
  split; [apply duplicateErrorsOf_spec |].
  intros a b m1 m2 Hab Ha Hb Heq Honly.
  rewrite duplicateErrorsOf_spec. unfold expectedDuplicates.
  rewrite (concat_imap_single _ _ b m2 Hb).
  - rewrite bool_decide_eq_true_2; [done |].
    apply elem_of_earlier_uuids. by exists a, m1.
  - intros j y Hj Hne. rewrite bool_decide_eq_false_2; [done |].
    intros (i & x & Hlt & Hi & Hxy)%elem_of_earlier_uuids.
    destruct (Honly i j x y) as [_ ?]; done.
Qed.
End ValidatorClaims.

Section ValidatorExamples.
Import Examples.

Lemma duplicate_errors_witness :
  duplicateErrorsOf (conv [leaf "a"] [root; A; msg "a" (Some "root")]) =
  [duplicateError 1 2 (msg "a" (Some "root"))].
Proof.
  apply (proj2 (proj2 (duplicate_errors_for_later_occurrences
                         (conv [leaf "a"] [root; A; msg "a" (Some "root")])))
               1 2 A (msg "a" (Some "root")));
    [lia | reflexivity | reflexivity | reflexivity |].
  intros i j x y Hij Hi Hj Hxy.
  destruct i as [|[|[|i]]]; destruct j as [|[|[|j]]];
    simpl in Hi, Hj; try lia; try discriminate;
    injection Hi as <-; injection Hj as <-; discriminate.
Defined.

(** Two children of the same missing parent: one orphan error each, not
    one for the missing parent. *)
Lemma orphan_errors_counterexample :
  parseErrors (parseAndValidateConversation
                 (conv [] [msg "x" (Some "gone"); msg "y" (Some "gone")])) =
  [ {| line := 1;
       error := "Orphaned message: parent UUID gone not found";
       content := "" |};
    {| line := 2;
       error := "Orphaned message: parent UUID gone not found";
       content := "" |} ].
Proof. reflexivity. Qed.
End ValidatorExamples.

(** ** Statistics *)

Section Stats.
Context {Num : Type} `{!JSNumber Num}.
Implicit Types (m : ConversationMessage Num)
               (msgs : list (ConversationMessage Num))
               (conversation : Conversation Num).

(** C7. With zero messages every statistic is at its baseline: the
    counts, the cost, the four token totals, the two durations and
    [branches] are 0 and [models] is the empty map. *)
Theorem stats_on_empty_input conversation :
  messages conversation = [] →
  calculateConversationStats conversation =
    {| messageCount := 0; userMessageCount := 0;
       assistantMessageCount := 0; totalCostUSD := num_zero;
       totalTokens := {| input := num_zero; output := num_zero;
                         cacheCreation := num_zero;
                         cacheRead := num_zero |};
       averageResponseTimeMs := num_zero;
       conversationDurationMs := num_zero;
       toolUsageCount := 0; models := ∅; branches := 0 |}.
Proof. unfold calculateConversationStats. by intros ->. Qed.

Lemma childrenCount_snoc msgs m :
  childrenCount (msgs ++ [m]) = increment (parentUuid m) (childrenCount msgs).
Proof. unfold childrenCount. by rewrite foldl_app. Qed.

Lemma occurrences_snoc p msgs m :
  occurrences p (msgs ++ [m]) =
  occurrences p msgs + (if bool_decide (parentUuid m = p) then 1 else 0).
Proof.
  unfold occurrences. rewrite List.filter_app, length_app. simpl.
  by case_bool_decide.
Qed.

(** [childrenCount] holds, for each parent value that occurs, the number
    of messages naming it. *)
Lemma childrenCount_lookup msgs p :
  childrenCount msgs !! p =
  if bool_decide (occurrences p msgs = 0) then None
  else Some (occurrences p msgs).
Proof.
  induction msgs as [|m msgs IH] using rev_ind; [done |].
  rewrite childrenCount_snoc, occurrences_snoc. unfold increment.
  destruct (decide (parentUuid m = p)) as [->|Hne].
  - rewrite lookup_insert_eq, IH.
    rewrite (bool_decide_eq_true_2 (p = p)) by done.
    rewrite (bool_decide_eq_false_2 (_ + 1 = 0)) by lia.
    case_bool_decide as Hz; [by rewrite Hz | done].
  - rewrite lookup_insert_ne, IH by done.
    rewrite (bool_decide_eq_false_2 (parentUuid m = p)) by done.
    by rewrite Nat.add_0_r.
Qed.

Lemma childrenCount_lookup_Some msgs p c :
  childrenCount msgs !! p = Some c ↔ occurrences p msgs = c ∧ 0 < c.
Proof.
  rewrite childrenCount_lookup. case_bool_decide as Hz.
  - split; [done | lia].
  - split; [intros [= <-]; lia | by intros [-> _]].
Qed.

Lemma countBranches_length (counts : gmap (option string) nat) :
  countBranches counts =
  length (filter (fun kv => 1 < kv.2) (map_to_list counts)).
Proof.
  unfold countBranches.
  induction (map_to_list counts) as [|[k c] l IH]; [done |].
  rewrite filter_cons, fmap_cons. cbn [List.filter snd].
  destruct (Nat.ltb_spec 1 c); case_decide; try lia; simpl; by rewrite IH.
Qed.

(** C8. [branches] is the number of distinct [parentUuid] values, the
    null parent of the roots included, that more than one message
    carries: it is the length of a duplicate-free list holding exactly
    those values.  So the null parent counts once when there are two or
    more roots and not at all when there is a single one. *)
Theorem branches_counts_fork_points conversation :
  ∃ forks : list (option string),
    NoDup forks ∧
    (∀ p, p ∈ forks ↔ 1 < occurrences p (messages conversation)) ∧
    branches (calculateConversationStats conversation) = length forks.
Proof.
  set (msgs := messages conversation).
  exists (filter (fun kv => 1 < kv.2) (map_to_list (childrenCount msgs))).*1.
  split; [| split].
  - eapply sublist_NoDup;
      [apply (NoDup_fst_map_to_list (childrenCount msgs)) |].
    apply fmap_sublist, sublist_filter.
  - intros p. rewrite list_elem_of_fmap. split.
    + intros ([k c] & -> & [Hc Hin]%list_elem_of_filter). simpl in *.
      apply elem_of_map_to_list, childrenCount_lookup_Some in Hin. lia.
    + intros Hp. exists (p, occurrences p msgs). split; [done |].
      apply list_elem_of_filter. split; [done |].
      apply elem_of_map_to_list, childrenCount_lookup_Some. lia.
  - rewrite length_fmap, <- countBranches_length.
    unfold calculateConversationStats. fold msgs.
    destruct msgs as [|m0 ms]; done.
Qed.
End Stats.

Section StatsExamples.
Import Examples.

Lemma stats_on_empty_input_witness :
  calculateConversationStats (conv [leaf "a"] []) =
    {| messageCount := 0; userMessageCount := 0;
       assistantMessageCount := 0; totalCostUSD := 0%Z;
       totalTokens := {| input := 0%Z; output := 0%Z;
                         cacheCreation := 0%Z; cacheRead := 0%Z |};
       averageResponseTimeMs := 0%Z; conversationDurationMs := 0%Z;
       toolUsageCount := 0; models := ∅; branches := 0 |}.
Proof.
  exact (stats_on_empty_input (conv [leaf "a"] []) eq_refl).
Defined.

(** Two roots make one branch point, a single root none. *)
Example branches_two_roots :
  branches (calculateConversationStats
              (conv [] [msg "r1" None; msg "r2" None])) = 1.
Proof. reflexivity. Qed.

Example branches_single_root :
  branches (calculateConversationStats (conv [] [root; A; B; C])) = 0.
Proof. reflexivity. Qed.
End StatsExamples.

(** ** Line decoder and assembler *)

Section ParserLemmas.
Context {Num : Type} `{!JSRuntime Num}.
Implicit Types (entry v : json Num) (lines : list string)
               (g : Generator (json Num))
               (st : ParsedConversation (json Num) (json Num)).

Lemma isSummaryMessage_returns entry :
  isSummaryMessage entry = Returned (recognizedSummary entry).
Proof.
  unfold recognizedSummary, isSummaryMessage, in_operator.
  destruct entry; simpl; try done; by case_bool_decide.
Qed.

Lemma isConversationMessage_object entry :
  isObject entry = true →
  ∃ b, isConversationMessage entry = Returned b.
Proof.
  unfold isConversationMessage, in_operator.
  destruct entry; try done; intros _; simpl;
    try destruct (bool_decide _); by eexists.
Qed.

Lemma isConversationMessage_primitive v :
  isObject v = false →
  isSummaryMessage v = Returned false ∧
  isConversationMessage v = Threw (uuidTypeError v).
Proof. by destruct v. Qed.

Lemma decoded_cons line lines :
  decoded (line :: lines) =
  (if nonBlank line
   then match JSON_parse line with inl entry => [entry] | inr _ => [] end
   else []) ++ decoded lines.
Proof.
  unfold decoded. simpl.
  destruct (nonBlank line); [destruct (JSON_parse line) |]; done.
Qed.

Lemma readLinesFrom_cons lineNumber line lines :
  readLinesFrom lineNumber (line :: lines) =
  if nonBlank line
  then match JSON_parse line with
       | inl entry => Yield entry (readLinesFrom (S lineNumber) lines)
       | inr message =>
           Raise {| exn_name := "Error";
                    exn_message := "Failed to parse line " +:+
                                   pretty (S lineNumber) +:+ ": " +:+
                                   message |}
       end
  else readLinesFrom (S lineNumber) lines.
Proof. unfold nonBlank. simpl. by case_bool_decide. Qed.

(** The decoder on lines that all decode: nothing is raised, and one
    entry is yielded per non-blank line. *)
Lemma readLinesFrom_decodes lineNumber lines :
  Forall decodes lines →
  raised (readLinesFrom lineNumber lines) = None ∧
  yielded (readLinesFrom lineNumber lines) = decoded lines.
Proof.
  intros Hall. revert lineNumber.
  induction Hall as [|line lines Hline _ IH]; intros lineNumber; [done |].
  rewrite readLinesFrom_cons, decoded_cons. unfold decodes in Hline.
  destruct (nonBlank line); [| apply IH].
  destruct Hline as [entry ->]; [done |]. simpl.
  destruct (IH (S lineNumber)) as [-> ->]. done.
Qed.

Lemma length_decoded lines :
  Forall decodes lines →
  length (decoded lines) = length (List.filter nonBlank lines).
Proof.
  induction 1 as [|line lines Hline _ IH]; [done |].
  rewrite decoded_cons. unfold decodes in Hline. simpl.
  destruct (nonBlank line); [| done].
  destruct Hline as [entry ->]; [done |]. simpl. by rewrite IH.
Qed.

(** The decoder on a prefix of lines that all decode. *)
Lemma readLinesFrom_app lineNumber pre rest :
  Forall decodes pre →
  yielded (readLinesFrom lineNumber (pre ++ rest)) =
  decoded pre ++ yielded (readLinesFrom (lineNumber + length pre) rest).
Proof.
  intros Hall. revert lineNumber.
  induction Hall as [|line lines Hline _ IH]; intros lineNumber.
  - simpl. by rewrite Nat.add_0_r.
  - rewrite <- app_comm_cons, readLinesFrom_cons, decoded_cons.
    unfold decodes in Hline. simpl length.
    replace (lineNumber + S (length lines))
      with (S lineNumber + length lines) by lia.
    destruct (nonBlank line); [| apply IH].
    destruct Hline as [entry ->]; [done |]. simpl. by rewrite IH.
Qed.

(** The loop stops at the first yielded value that is neither an object
    nor an array: the guard [isConversationMessage] throws on it. *)
Lemma forAwait_primitive g st pre v post :
  yielded g = pre ++ v :: post →
  Forall (fun entry => isObject entry = true) pre →
  isObject v = false →
  ∃ st', forAwait g st = (st', Some (uuidTypeError v)).
Proof.
  intros Hg Hpre Hv. revert g st Hg.
  induction Hpre as [|entry pre Hentry _ IH]; intros g st Hg.
  - destruct g as [a next| |e]; [| done | done].
    injection Hg as -> _. simpl.
    destruct (isConversationMessage_primitive v Hv) as [-> ->].
    by eexists.
  - destruct g as [a next| |e]; [| done | done].
    injection Hg as -> Hnext. simpl.
    rewrite isSummaryMessage_returns.
    destruct (recognizedSummary entry); [by apply IH |].
    destruct (isConversationMessage_object entry Hentry) as [[] ->];
      by apply IH.
Qed.

(** On objects and arrays the loop runs to the end of the sequence and
    sorts every entry into one of the three buckets. *)
Lemma forAwait_objects g st :
  raised g = None →
  Forall (fun entry => isObject entry = true) (yielded g) →
  ∃ st',
    forAwait g st = (st', None) ∧
    lineCount st' = lineCount st + length (yielded g) ∧
    filePath st' = filePath st ∧
    summaries st' =
      summaries st ++ List.filter recognizedSummary (yielded g) ∧
    messages st' =
      messages st ++ List.filter recognizedMessage (yielded g) ∧
    parseErrors st' =
      parseErrors st ++
      concat (imap (fun i entry =>
                      if unrecognized entry
                      then [unknownEntryError (lineCount st + i + 1) entry]
                      else [])
                   (yielded g)).
Proof.
  revert st. induction g as [entry next IH| |e]; intros st Hraised Hobj.
  - simpl in Hraised, Hobj. apply Forall_cons in Hobj as [Hentry Hobj].
    cbn [forAwait yielded]. rewrite imap_cons.
    cbn [List.filter concat length].
    unfold unrecognized, recognizedMessage.
    rewrite isSummaryMessage_returns.
    destruct (isConversationMessage_object entry Hentry) as [b ->].
    destruct (recognizedSummary entry); [| destruct b];
      cbn [negb andb];
      match goal with
      | |- context [forAwait next ?s] =>
          destruct (IH s Hraised Hobj)
            as (st' & -> & Hcount & Hpath & Hsum & Hmsg & Herr)
      end;
      exists st'; rewrite Hcount, Hpath, Hsum, Hmsg, Herr;
      cbn [lineCount filePath summaries messages parseErrors
           pushSummary pushMessage pushError countLine];
      rewrite <- ?(assoc_L (++)).
    all: repeat split; try done; try (simpl; lia).
    all: simpl;
      repeat match goal with
             | |- _ ++ _ = _ ++ _ => f_equal
             | |- _ :: _ = _ :: _ => f_equal
             | |- concat _ = concat _ => f_equal
             end;
      try (unfold unknownEntryError; simpl; f_equal; lia).
    all: apply imap_ext; intros i x _; simpl;
      unfold unrecognized, recognizedMessage;
      by replace (S (lineCount st + i + 1))
           with (lineCount st + S i + 1) by lia.
  - exists st. simpl. by rewrite !app_nil_r, Nat.add_0_r.
  - done.
Qed.
End ParserLemmas.

Section ParserClaims.
Context {Num : Type} `{!JSRuntime Num}.
Implicit Types (entry v : json Num) (lines : list string).

Lemma catchBlock_rethrows (st : ParsedConversation (json Num) (json Num))
    error :
  includes "Failed to parse line" (exn_message error) = false →
  catchBlock st error = Threw error.
Proof. unfold catchBlock. by intros ->. Qed.

(** When every line decodes to an object or an array, the assembler
    returns: [lineCount] is the number of non-blank lines, the entries
    are sorted into [summaries] and [messages] in file order, and every
    other entry leaves one error whose [content] is the serialized entry
    and whose [line] is its position among the decoded entries. *)
Lemma parseConversation_objects filePath lines :
  Forall decodes lines →
  Forall (fun entry => isObject entry = true) (decoded lines) →
  ∃ r,
    parseConversation filePath lines = Returned r ∧
    lineCount r = length (List.filter nonBlank lines) ∧
    summaries r = List.filter recognizedSummary (decoded lines) ∧
    messages r = List.filter recognizedMessage (decoded lines) ∧
    parseErrors r =
      concat (imap (fun i entry =>
                      if unrecognized entry
                      then [unknownEntryError (i + 1) entry] else [])
                   (decoded lines)).
Proof.
  intros Hdec Hobj. unfold parseConversation, readConversationLines.
  destruct (readLinesFrom_decodes 0 lines Hdec) as [Hraised Hyield].
  rewrite <- Hyield in Hobj.
  edestruct (forAwait_objects (readLinesFrom 0 lines))
    as (r & -> & Hcount & _ & Hsum & Hmsg & Herr); [done | done |].
  exists r. rewrite Hcount, Hsum, Hmsg, Herr, Hyield. simpl.
  by rewrite length_decoded.
Qed.

(** C1. An unrecognized entry is recorded as data only when it is an
    object or an array: then the assembler returns, with one error per
    unrecognized entry carrying the serialized entry.  A line that
    decodes to null, a boolean, a number or a string makes the guard
    [isConversationMessage] throw a [TypeError], which the [catch] block
    throws again, so [parseConversation] ends with that exception and
    returns nothing.  (The text of the [TypeError] is the engine's; the
    [catch] block keeps the exception only if that text contains
    "Failed to parse line".) *)
Theorem parseConversation_unrecognized_entries filePath :
  (∀ lines,
     Forall decodes lines →
     Forall (fun entry => isObject entry = true) (decoded lines) →
     ∃ r,
       parseConversation filePath lines = Returned r ∧
       parseErrors r =
         concat (imap (fun i entry =>
                         if unrecognized entry
                         then [unknownEntryError (i + 1) entry] else [])
                      (decoded lines))) ∧
  (∀ pre line v post,
     Forall decodes pre →
     Forall (fun entry => isObject entry = true) (decoded pre) →
     nonBlank line = true →
     JSON_parse line = inl v →
     isObject v = false →
     includes "Failed to parse line" (in_TypeError "uuid" v) = false →
     parseConversation filePath (pre ++ line :: post) =
       Threw (uuidTypeError v)).
Proof.
  split.
  - intros lines Hdec Hobj.
    destruct (parseConversation_objects filePath lines Hdec Hobj)
      as (r & Hrun & _ & _ & _ & Herr).
    by exists r.
  - intros pre line v post Hdec Hobj Hline Hparse Hv Htext.
    unfold parseConversation, readConversationLines.
    edestruct (forAwait_primitive (readLinesFrom 0 (pre ++ line :: post)))
      as [st' ->]; [| exact Hobj | exact Hv |].
    + rewrite readLinesFrom_app by done.
      rewrite readLinesFrom_cons, Hline, Hparse. done.
    + by apply catchBlock_rethrows.
Qed.

(** C9. When no line fails to decode, the decoder raises nothing and
    yields one entry per non-blank line.  [parseConversation] returns
    that number as [lineCount] when all the entries are objects or
    arrays; when one of them is null, a boolean, a number or a string it
    returns no [lineCount] at all, it ends with the [TypeError] of the
    guard. *)
Theorem lineCount_of_decoded_lines filePath lines :
  Forall decodes lines →
  (raised (readConversationLines lines) = None ∧
   length (yielded (readConversationLines lines)) =
     length (List.filter nonBlank lines)) ∧
  (Forall (fun entry => isObject entry = true) (decoded lines) →
   ∃ r, parseConversation filePath lines = Returned r ∧
        lineCount r = length (List.filter nonBlank lines)) ∧
  (∀ pre v post,
     decoded lines = pre ++ v :: post →
     Forall (fun entry => isObject entry = true) pre →
     isObject v = false →
     includes "Failed to parse line" (in_TypeError "uuid" v) = false →
     parseConversation filePath lines = Threw (uuidTypeError v)).
Proof.
  intros Hdec. unfold readConversationLines.
  destruct (readLinesFrom_decodes 0 lines Hdec) as [Hraised Hyield].
  split; [| split].
  - by rewrite Hraised, Hyield, length_decoded.
  - intros Hobj.
    destruct (parseConversation_objects filePath lines Hdec Hobj)
      as (r & Hrun & Hcount & _).
    by exists r.
  - intros pre v post Hsplit Hpre Hv Htext.
    unfold parseConversation, readConversationLines.
    edestruct (forAwait_primitive (readLinesFrom 0 lines))
      as [st' ->]; [| exact Hpre | exact Hv |].
    + by rewrite Hyield.
    + by apply catchBlock_rethrows.
Qed.
End ParserClaims.

Section ParserExamples.
Import Examples.

Local Ltac all_decode :=
  repeat (apply Forall_cons_2;
          [ unfold decodes;
            first [ intros _; eexists; reflexivity
                  | intros Hblank; vm_compute in Hblank; discriminate ] |]);
  apply Forall_nil_2.

(** A log whose only line is [null]. *)
Lemma parseConversation_unrecognized_entries_witness :
  (∃ r, parseConversation "log.jsonl" [stringify ping; ""; "[]"] =
          Returned r ∧
        parseErrors r =
          [ {| line := 1; error := "Unknown entry type";
               content := stringify ping |};
            {| line := 2; error := "Unknown entry type";
               content := "[]" |} ]) ∧
  parseConversation "log.jsonl" ["null"] =
    Threw {| exn_name := "TypeError";
             exn_message :=
               "Cannot use 'in' operator to search for 'uuid' in null" |}.
Proof.
  split.
  - destruct (proj1 (parseConversation_unrecognized_entries "log.jsonl")
                    [stringify ping; ""; "[]"]) as (r & Hrun & Herr).
    + all_decode.
    + repeat (apply Forall_cons_2; [reflexivity |]). apply Forall_nil_2.
    + exists r. split; [exact Hrun |]. rewrite Herr. reflexivity.
  - refine (proj2 (parseConversation_unrecognized_entries "log.jsonl")
                  [] "null" JNull [] _ _ _ _ _ _);
      try reflexivity; apply Forall_nil_2.
Defined.

Lemma lineCount_of_decoded_lines_witness :
  (raised (readConversationLines ["42"]) = None ∧
   length (yielded (readConversationLines ["42"])) = 1) ∧
  parseConversation "log.jsonl" ["42"] =
    Threw {| exn_name := "TypeError";
             exn_message :=
               "Cannot use 'in' operator to search for 'uuid' in 42" |}.
Proof.
  assert (Forall decodes ["42"]) as Hdec by all_decode.
  split.
  - apply (proj1 (lineCount_of_decoded_lines "log.jsonl" ["42"] Hdec)).
  - refine (proj2 (proj2 (lineCount_of_decoded_lines "log.jsonl" ["42"]
                              Hdec))
                  [] (JNum 42%Z) [] _ _ _ _);
      try reflexivity; apply Forall_nil_2.
Defined.

(** The scenario of the specification, up to the assembler: one summary
    and one user message, then a line that does not decode. *)
Example parseConversation_malformed_line :
  parseConversation "log.jsonl"
    [stringify summary_m2; "  "; stringify user_m1; "{oops"; "null"] =
  Returned
    {| summaries := [summary_m2]; messages := [user_m1];
       filePath := "log.jsonl"; lineCount := 2;
       parseErrors :=
         [ {| line := 4;
              error := "Failed to parse line 4: Unexpected token in JSON";
              content := "" |} ] |}.
Proof. reflexivity. Qed.

(** With V8's wording a string entry can put the marker of the decoder
    into the message of the [TypeError]: the [catch] block then keeps the
    exception, reads a line number out of the entry, and returns with the
    lines after the entry unread. *)
Example parseConversation_string_entry :
  parseConversation "log.jsonl" [quoted "Failed to parse line 7"; "[]"] =
  Returned
    {| summaries := []; messages := []; filePath := "log.jsonl";
       lineCount := 1;
       parseErrors :=
         [ {| line := 7;
              error := "Cannot use 'in' operator to search for 'uuid' in " +:+
                       "Failed to parse line 7";
              content := "" |} ] |}.
Proof. reflexivity. Qed.
End ParserExamples.

(** ** Tree builder *)

Section TreeMaps.
Context {Num : Type}.
Implicit Types (m : ConversationMessage Num)
               (msgs L : list (ConversationMessage Num)).

Lemma buildMaps_snoc msgs m :
  (buildMaps (msgs ++ [m])).2 =
  <[ parentUuid m :=
       default [] ((buildMaps msgs).2 !! parentUuid m) ++ [m] ]>
    (buildMaps msgs).2.
Proof.
  unfold buildMaps. rewrite foldl_app. simpl.
  by destruct (foldl _ _ msgs).
Qed.

(** [childrenMap.get(p) || []] lists the messages naming [p], in list
    order. *)
Lemma buildMaps_children msgs p :
  default [] ((buildMaps msgs).2 !! p) = childrenOf msgs p.
Proof.
  unfold childrenOf.
  induction msgs as [|m msgs IH] using rev_ind; [done |].
  rewrite buildMaps_snoc, filter_app, filter_cons, filter_nil.
  destruct (decide (parentUuid m = p)) as [<-|Hne].
  - by rewrite lookup_insert_eq, IH.
  - by rewrite lookup_insert_ne, IH, app_nil_r.
Qed.

Lemma mapM_app {A B} (f : A → option B) (l1 l2 : list A) :
  mapM f (l1 ++ l2) =
  k1 ← mapM f l1; k2 ← mapM f l2; Some (k1 ++ k2).
Proof.
  induction l1 as [|x l1 IH]; simpl.
  - by destruct (mapM f l2).
  - destruct (f x); simpl; [| done]. rewrite IH.
    destruct (mapM f l1); simpl; [| done]. by destruct (mapM f l2).
Qed.

Lemma forestCount_app (f1 f2 : list (ConversationNode Num)) :
  forestCount (f1 ++ f2) = forestCount f1 + forestCount f2.
Proof. unfold forestCount. by rewrite map_app, sum_list_with_app. Qed.

Lemma level_succ msgs k L :
  level msgs (S k) L = nextLevel msgs (level msgs k L).
Proof.
  revert L. induction k as [|k IH]; intros L; [done |].
  change (level msgs (S (S k)) L) with (level msgs (S k) (nextLevel msgs L)).
  by rewrite IH.
Qed.

Lemma sum_list_with_seq_S (f : nat → nat) a n :
  sum_list_with f (seq (S a) n) =
  sum_list_with (fun k => f (S k)) (seq a n).
Proof.
  revert a. induction n as [|n IH]; intros a; [done |].
  simpl. by rewrite IH.
Qed.

(** One more unit of fuel builds one more level: the trees of [L] are
    the messages of [L] over the trees of their children. *)
Lemma buildForest_step msgs fuel L forest' :
  mapM (buildNode fuel (buildMaps msgs).2) (nextLevel msgs L) =
    Some forest' →
  ∃ forest,
    mapM (buildNode (S fuel) (buildMaps msgs).2) L = Some forest ∧
    forestCount forest = length L + forestCount forest'.
Proof.
  revert forest'. induction L as [|m L IH]; intros forest' Hnext.
  - injection Hnext as <-. by exists [].
  - unfold nextLevel in Hnext. rewrite bind_cons, mapM_app in Hnext.
    destruct (mapM _ (childrenOf msgs (Some (uuid m))))
      as [kids|] eqn:Hkids; [| done]. simpl in Hnext.
    destruct (mapM _ (L ≫= _)) as [rest|] eqn:Hrest; [| done].
    injection Hnext as <-.
    destruct (IH rest Hrest) as (forest & Hforest & Hcount).
    exists (Node m kids :: forest). split.
    + change (mapM ?f (m :: L)) with
        (y ← f m; k ← mapM f L; Some (y :: k)).
      rewrite Hforest.
      change (buildNode (S fuel) ?cm m) with
        (kids ← mapM (buildNode fuel cm)
                    (default [] (cm !! Some (uuid m)));
         Some (Node m kids)).
      by rewrite buildMaps_children, Hkids.
    + rewrite forestCount_app. unfold forestCount in *. simpl.
      rewrite Hcount. lia.
Qed.

(** Enough fuel for the deepest level builds the whole forest below
    [L], and its nodes are the messages of the levels. *)
Lemma buildForest_levels msgs fuel L :
  level msgs fuel L = [] →
  ∃ forest,
    mapM (buildNode fuel (buildMaps msgs).2) L = Some forest ∧
    forestCount forest =
      sum_list_with (fun k => length (level msgs k L)) (seq 0 fuel).
Proof.
  revert L. induction fuel as [|fuel IH]; intros L Hempty.
  - simpl in Hempty. subst L. by exists [].
  - destruct (IH (nextLevel msgs L) Hempty) as (forest' & Hrun & Hcount).
    destruct (buildForest_step msgs fuel L forest' Hrun)
      as (forest & Hforest & Hlen).
    exists forest. split; [done |].
    rewrite Hlen, Hcount. simpl. f_equal.
    by rewrite sum_list_with_seq_S.
Qed.
End TreeMaps.

(** Counting with families of predicates. *)
Section Counting.
Context {A : Type}.
Implicit Types (l : list A) (d : nat → A → bool).

Lemma filter_bool (f : A → bool) l :
  filter (fun x => f x) l = List.filter f l.
Proof.
  induction l as [|x l IH]; [done |]. rewrite filter_cons. simpl.
  destruct (f x); simpl; by rewrite IH.
Qed.

Lemma sum_list_with_add {B} (f g : B → nat) (ks : list B) :
  sum_list_with (fun k => f k + g k) ks =
  sum_list_with f ks + sum_list_with g ks.
Proof. induction ks as [|k ks IH]; simpl; lia. Qed.

Lemma sum_list_with_ext_in {B} (f g : B → nat) (ks : list B) :
  (∀ k, k ∈ ks → f k = g k) → sum_list_with f ks = sum_list_with g ks.
Proof.
  induction ks as [|k ks IH]; intros Hfg; [done |]. simpl.
  rewrite (Hfg k), IH; [done | | apply list_elem_of_here].
  intros k' Hk'. apply Hfg. by apply list_elem_of_further.
Qed.

(** An element that satisfies at most one predicate of the family is
    counted once over the indices [ks], or not at all. *)
Lemma sum_indicator d x (ks : list nat) :
  (∀ k k', d k x = true → d k' x = true → k = k') →
  NoDup ks →
  sum_list_with (fun k => if d k x then 1 else 0) ks =
  if existsb (fun k => d k x) ks then 1 else 0.
Proof.
  intros Hfun. induction 1 as [|k ks Hfresh Hnd IH]; [done |]. simpl.
  destruct (d k x) eqn:Hk; simpl; [| done].
  rewrite (sum_list_with_ext_in _ (fun _ => 0)).
  - clear. induction ks; done.
  - intros k' Hk'. destruct (d k' x) eqn:Hk''; [| done].
    by rewrite (Hfun k k' Hk Hk'') in Hfresh.
Qed.

(** The levels of a family of disjoint predicates partition the
    elements that satisfy one of them. *)
Lemma sum_disjoint_levels d l (ks : list nat) :
  (∀ x k k', d k x = true → d k' x = true → k = k') →
  NoDup ks →
  sum_list_with (fun k => length (filter (fun x => d k x) l)) ks =
  length (filter (fun x => existsb (fun k => d k x) ks) l).
Proof.
  intros Hfun Hnd. induction l as [|x l IH].
  - clear. induction ks; done.
  - rewrite filter_cons.
    rewrite (sum_list_with_ext_in _
               (fun k => (if d k x then 1 else 0) +
                         length (filter (fun x => d k x) l))).
    + rewrite sum_list_with_add, IH, sum_indicator by eauto.
      destruct (existsb _ ks); case_decide; simpl; done.
    + intros k _. rewrite filter_cons.
      destruct (d k x); case_decide; simpl; done.
Qed.

Lemma sum_list_with_ge_length (g : nat → nat) (ks : list nat) :
  (∀ k, k ∈ ks → 1 ≤ g k) → length ks ≤ sum_list_with g ks.
Proof.
  induction ks as [|k ks IH]; intros Hg; [done |]. simpl.
  pose proof (Hg k (list_elem_of_here _ _)).
  assert (length ks ≤ sum_list_with g ks); [| lia].
  apply IH. intros k' Hk'. apply Hg. by apply list_elem_of_further.
Qed.
End Counting.

Section TreeDepth.
Context {Num : Type}.
Implicit Types (m q c : ConversationMessage Num)
               (msgs L : list (ConversationMessage Num)).

Lemma findMessage_Some msgs u q :
  findMessage msgs u = Some q → q ∈ msgs ∧ uuid q = u.
Proof.
  intros [Hin Hu]%List.find_some. split.
  - by apply list_elem_of_In.
  - by apply bool_decide_eq_true in Hu.
Qed.

Lemma findMessage_NoDup msgs q :
  NoDup (uuid <$> msgs) → q ∈ msgs → findMessage msgs (uuid q) = Some q.
Proof.
  unfold findMessage. induction msgs as [|m msgs IH]; intros Hnd Hin.
  - by apply elem_of_nil in Hin.
  - rewrite fmap_cons in Hnd. apply NoDup_cons in Hnd as [Hfresh Hnd].
    simpl. apply elem_of_cons in Hin as [-> | Hin].
    + by rewrite bool_decide_eq_true_2.
    + rewrite bool_decide_eq_false_2; [by apply IH |].
      intros Heq. apply Hfresh. rewrite Heq.
      by apply list_elem_of_fmap_2.
Qed.

Lemma uuid_inj_on msgs m q :
  NoDup (uuid <$> msgs) → m ∈ msgs → q ∈ msgs → uuid m = uuid q → m = q.
Proof.
  intros Hnd Hm Hq Heq.
  pose proof (findMessage_NoDup msgs m Hnd Hm) as Hfm.
  rewrite Heq, (findMessage_NoDup msgs q Hnd Hq) in Hfm. congruence.
Qed.

Lemma atDepth_succ msgs k m :
  atDepth msgs (S k) m = true ↔
  ∃ q, parentUuid m = Some (uuid q) ∧
       findMessage msgs (uuid q) = Some q ∧ atDepth msgs k q = true.
Proof.
  simpl. split.
  - destruct (parentUuid m) as [p|]; [| done].
    destruct (findMessage msgs p) as [q|] eqn:Hq; [| done].
    intros Hk. exists q.
    apply findMessage_Some in Hq as Hq'. destruct Hq' as [_ <-]. done.
  - intros (q & -> & -> & Hk). done.
Qed.

(** A message has at most one depth. *)
Lemma atDepth_functional msgs m k k' :
  atDepth msgs k m = true → atDepth msgs k' m = true → k = k'.
Proof.
  revert m k'. induction k as [|k IH]; intros m k' Hk Hk'.
  - destruct k' as [|k']; [done |]. simpl in Hk, Hk'.
    by destruct (parentUuid m).
  - destruct k' as [|k'].
    + simpl in Hk, Hk'. by destruct (parentUuid m).
    + apply atDepth_succ in Hk as (q & Hp & Hq & Hk).
      apply atDepth_succ in Hk' as (q' & Hp' & Hq' & Hk').
      rewrite Hp in Hp'. injection Hp' as Hu. rewrite <- Hu, Hq in Hq'.
      injection Hq' as <-. f_equal. by apply (IH q).
Qed.

Lemma elem_of_depthLevel msgs k m :
  m ∈ depthLevel msgs k ↔ atDepth msgs k m = true ∧ m ∈ msgs.
Proof.
  unfold depthLevel. rewrite list_elem_of_filter, Is_true_true. done.
Qed.

Lemma elem_of_childrenOf msgs p c :
  c ∈ childrenOf msgs p ↔ parentUuid c = p ∧ c ∈ msgs.
Proof. unfold childrenOf. by rewrite list_elem_of_filter. Qed.

(** With distinct identifiers, the children of the messages at depth
    [k] are the messages at depth [k + 1]. *)
Lemma nextLevel_depthLevel msgs k :
  NoDup (uuid <$> msgs) →
  nextLevel msgs (depthLevel msgs k) ≡ₚ depthLevel msgs (S k).
Proof.
  intros Hnd. pose proof (NoDup_fmap_1 _ _ Hnd) as Hmsgs.
  apply NoDup_Permutation.
  - apply NoDup_bind.
    + intros x1 x2 y [_ Hx1]%elem_of_depthLevel [_ Hx2]%elem_of_depthLevel
             [Hy1 _]%elem_of_childrenOf [Hy2 _]%elem_of_childrenOf.
      apply (uuid_inj_on msgs); [done | done | done | congruence].
    + intros x _. by apply NoDup_filter.
    + by apply NoDup_filter.
  - by apply NoDup_filter.
  - intros c. unfold nextLevel.
    rewrite list_elem_of_bind, elem_of_depthLevel, atDepth_succ. split.
    + intros (m & [Hp Hc]%elem_of_childrenOf & [Hk Hm]%elem_of_depthLevel).
      split; [| done]. exists m. by rewrite findMessage_NoDup.
    + intros [(q & Hp & Hq & Hk) Hc]. exists q.
      apply findMessage_Some in Hq as [Hq _].
      by rewrite elem_of_childrenOf, elem_of_depthLevel.
Qed.

Lemma level_depthLevel msgs k :
  NoDup (uuid <$> msgs) →
  level msgs k (childrenOf msgs None) ≡ₚ depthLevel msgs k.
Proof.
  intros Hnd. induction k as [|k IH].
  - simpl. unfold childrenOf, depthLevel.
    erewrite list_filter_iff; [done |].
    intros m. rewrite Is_true_true. simpl. by destruct (parentUuid m).
  - rewrite level_succ. unfold nextLevel at 1. rewrite IH.
    by apply nextLevel_depthLevel.
Qed.

(** A message at depth [k + j] has an ancestor at depth [k]. *)
Lemma depthLevel_ancestor msgs k j m :
  m ∈ depthLevel msgs (j + k) → ∃ q, q ∈ depthLevel msgs k.
Proof.
  revert m. induction j as [|j IH]; intros m Hm; [by exists m |].
  apply elem_of_depthLevel in Hm as [Hm _]. simpl plus in Hm.
  apply atDepth_succ in Hm as (q & _ & [Hq _]%findMessage_Some & Hk).
  apply (IH q). by apply elem_of_depthLevel.
Qed.

(** No message is deeper than the number of messages allows. *)
Lemma depthLevel_bound msgs k :
  length msgs ≤ k → depthLevel msgs k = [].
Proof.
  intros Hk. destruct (depthLevel msgs k) as [|m D] eqn:HD; [done |].
  exfalso.
  assert (m ∈ depthLevel msgs k) as Hm
    by (rewrite HD; apply list_elem_of_here).
  pose proof (sum_disjoint_levels (atDepth msgs) msgs
                (seq 0 (S (length msgs)))
                (fun x a b => atDepth_functional msgs x a b)
                (NoDup_seq _ _)) as Hsum.
  pose proof (length_filter
                (fun x => existsb (fun k => atDepth msgs k x)
                                  (seq 0 (S (length msgs)))) msgs) as Hle.
  pose proof (sum_list_with_ge_length
                (fun k => length (depthLevel msgs k))
                (seq 0 (S (length msgs)))) as Hge.
  rewrite length_seq in Hge.
  assert (S (length msgs)
          ≤ sum_list_with (fun k => length (depthLevel msgs k))
                          (seq 0 (S (length msgs))));
    [| unfold depthLevel in *; lia].
  apply Hge. intros i Hi%elem_of_seq.
  destruct (depthLevel_ancestor msgs i (k - i) m) as [q Hq].
  { by replace (k - i + i) with k by lia. }
  destruct (depthLevel msgs i); [by apply elem_of_nil in Hq | simpl; lia].
Qed.
End TreeDepth.

Section TreeClaims.
Context {Num : Type}.
Implicit Types (m : ConversationMessage Num)
               (msgs : list (ConversationMessage Num)).

Lemma length_filter_negb {A} (f : A → bool) (l : list A) :
  length (List.filter f l) =
  length l - length (List.filter (fun x => negb (f x)) l).
Proof.
  induction l as [|x l IH]; [done |]. simpl.
  pose proof (List.filter_length_le (fun x => negb (f x)) l).
  destruct (f x); simpl; lia.
Qed.

(** An orphan is never rooted. *)
Lemma orphaned_not_rooted msgs m :
  orphaned msgs m = true → rooted msgs m = false.
Proof.
  unfold orphaned, rooted. destruct (parentUuid m) as [p|] eqn:Hp; [| done].
  intros Hmissing%bool_decide_eq_true.
  apply not_true_iff_false. intros (k & _ & Hk)%existsb_exists.
  destruct k as [|k]; simpl in Hk; rewrite Hp in Hk; [done |].
  destruct (findMessage msgs p) as [q|] eqn:Hq; [| done].
  apply findMessage_Some in Hq as [Hq <-].
  apply Hmissing. by apply list_elem_of_fmap_2.
Qed.

(** The nodes of the forest are the rooted messages. *)
Lemma buildConversationTree_rooted fuel msgs :
  NoDup (uuid <$> msgs) →
  length msgs ≤ fuel →
  ∃ forest,
    buildConversationTree fuel msgs = Some forest ∧
    forestCount forest = length (List.filter (rooted msgs) msgs).
Proof.
  intros Hnd Hfuel. unfold buildConversationTree.
  destruct (buildMaps msgs) as [messageMap childrenMap] eqn:Hmaps.
  replace childrenMap with (buildMaps msgs).2 by by rewrite Hmaps.
  rewrite buildMaps_children.
  destruct (buildForest_levels msgs fuel (childrenOf msgs None))
    as (forest & Hrun & Hcount).
  { apply Permutation_nil_r. rewrite level_depthLevel by done.
    by rewrite depthLevel_bound. }
  exists forest. split; [done |]. rewrite Hcount.
  rewrite (sum_list_with_ext_in _ (fun k => length (depthLevel msgs k)))
    by (intros k _; by rewrite level_depthLevel).
  replace fuel with (length msgs + (fuel - length msgs)) by lia.
  rewrite seq_app, sum_list_with_app.
  rewrite (sum_list_with_ext_in _ (fun _ => 0) (seq (0 + length msgs) _)).
  - replace (sum_list_with (fun _ : nat => 0) _) with 0
      by (clear; induction (seq _ _); done).
    rewrite Nat.add_0_r. unfold depthLevel.
    rewrite (sum_disjoint_levels (atDepth msgs));
      [| intros x a b; apply atDepth_functional | apply NoDup_seq].
    by rewrite filter_bool.
  - intros k [Hk _]%elem_of_seq. rewrite depthLevel_bound; [done | lia].
Qed.

(** C2 (amended). For a message list with pairwise distinct identifiers
    [buildConversationTree] returns (a recursion depth of
    [messages.length] is enough), and the number of nodes of the forest,
    at all depths, is [messages.length] minus the number of messages
    whose parent chain does not end at a message without parent: the
    orphans, the messages below an orphan and the messages on or below a
    cycle of parents.  It is [messages.length] minus the number of
    orphans when every message outside the forest is itself an orphan. *)
Theorem forest_counts_rooted_messages fuel msgs :
  NoDup (uuid <$> msgs) →
  length msgs ≤ fuel →
  ∃ forest,
    buildConversationTree fuel msgs = Some forest ∧
    forestCount forest =
      length msgs -
      length (List.filter (fun m => negb (rooted msgs m)) msgs) ∧
    ((∀ m, m ∈ msgs → rooted msgs m = false → orphaned msgs m = true) →
     forestCount forest =
       length msgs - length (List.filter (orphaned msgs) msgs)).
Proof.
  intros Hnd Hfuel.
  destruct (buildConversationTree_rooted fuel msgs Hnd Hfuel)
    as (forest & Hrun & Hcount).
  exists forest. split; [done |].
  rewrite Hcount, length_filter_negb. split; [done |].
  intros Hall. do 2 f_equal. apply List.filter_ext_in.
  intros m Hm%list_elem_of_In.
  destruct (rooted msgs m) eqn:Hr; simpl.
  - destruct (orphaned msgs m) eqn:Ho; [| done].
    apply orphaned_not_rooted in Ho. congruence.
  - symmetry. by apply Hall.
Qed.
End TreeClaims.

Section TreeExamples.
Import Examples.

Lemma forest_counts_rooted_messages_witness :
  ∃ forest,
    buildConversationTree 4
      [root; A; msg "b" (Some "gone"); msg "c" (Some "b")] = Some forest ∧
    forestCount forest = 2 ∧
    buildConversationTree 2 [root; msg "b" (Some "gone")]
      = Some [Node root []] .
Proof.
  destruct (forest_counts_rooted_messages 4
              [root; A; msg "b" (Some "gone"); msg "c" (Some "b")])
    as (forest & Hrun & Hcount & _).
  - apply (bool_decide_unpack _). vm_compute. exact I.
  - simpl. lia.
  - exists forest. split; [exact Hrun |]. split; [exact Hcount |].
    reflexivity.
Defined.

(** The claim of C2 as stated: the message "c" names the orphan "b" as
    parent; it is not an orphan, and it is not in the forest either. *)
Lemma forest_counts_counterexample :
  let msgs := [msg "b" (Some "gone"); msg "c" (Some "b")] in
  (∀ fuel, buildConversationTree fuel msgs = Some []) ∧
  forestCount (Num := Z) [] = 0 ∧
  length msgs - length (List.filter (orphaned msgs) msgs) = 1.
Proof. split; [| split]; reflexivity. Qed.

(** Two messages naming each other as parent: neither is an orphan and
    neither is in the forest. *)
Example forest_drops_cycles :
  let msgs := [msg "p" (Some "q"); msg "q" (Some "p")] in
  (∀ fuel, buildConversationTree fuel msgs = Some []) ∧
  List.filter (orphaned msgs) msgs = [].
Proof. split; reflexivity. Qed.

(** Duplicate identifiers: a message naming itself through a duplicate
    is rebuilt at every depth, so no recursion depth is enough. *)
Lemma forest_unbounded_with_duplicates :
  ∀ fuel,
    buildConversationTree fuel [msg "x" None; msg "x" (Some "x")] = None.
Proof.
  intros fuel. unfold buildConversationTree.
  set (msgs := [msg "x" None; msg "x" (Some "x")]).
  change (mapM (buildNode fuel (buildMaps msgs).2) [msg "x" None] = None).
  assert (∀ p, buildNode fuel (buildMaps msgs).2 (msg "x" p) = None)
    as Hnone.
  { induction fuel as [|fuel IH]; intros p; [done |].
    change (buildNode (S fuel) ?cm ?m) with
      (kids ← mapM (buildNode fuel cm) (default [] (cm !! Some (uuid m)));
       Some (Node m kids)).
    change (default [] (_ !! Some (uuid (msg "x" p))))
      with [msg "x" (Some "x")].
    simpl. by rewrite IH. }
  simpl. by rewrite Hnone.
Qed.
End TreeExamples.

(** * Further properties *)

(** ** Line numbers in messages *)

Lemma pretty_N_char_digit d :
  (d < 10)%N →
  is_digit (pretty_N_char d) = true ∧
  nat_of_ascii (pretty_N_char d) - 48 = N.to_nat d.
Proof.
  intros Hd.
  assert (d = 0 ∨ d = 1 ∨ d = 2 ∨ d = 3 ∨ d = 4 ∨ d = 5 ∨ d = 6 ∨ d = 7 ∨
          d = 8 ∨ d = 9)%N as Hcases by lia.
  repeat (destruct Hcases as [-> | Hcases]; [by vm_compute |]).
  subst d. by vm_compute.
Qed.

Lemma parseInt_pretty_N_go x s :
  foldl (fun acc c => 10 * acc + (nat_of_ascii c - 48)) 0
        (list_ascii_of_string (pretty_N_go x s)) =
  foldl (fun acc c => 10 * acc + (nat_of_ascii c - 48)) (N.to_nat x)
        (list_ascii_of_string s).
Proof.
  revert s. induction (N.lt_wf_0 x) as [x _ IH]; intros s.
  destruct (decide (x = 0)%N) as [-> | Hx]; [by rewrite pretty_N_go_0 |].
  rewrite pretty_N_go_step by lia.
  rewrite IH by (apply N.div_lt; lia). simpl.
  destruct (pretty_N_char_digit (x `mod` 10)%N) as [_ ->].
  { apply N.mod_lt. lia. }
  f_equal. pose proof (N.div_mod x 10). lia.
Qed.

(** [parseInt] reads back the decimal text of a number. *)
Lemma parseInt_pretty (n : nat) : parseInt (pretty n) = n.
Proof.
  unfold parseInt, pretty, pretty_nat, pretty, pretty_N.
  case_decide as Hn.
  - simpl. lia.
  - rewrite parseInt_pretty_N_go. simpl. lia.
Qed.

Lemma leading_digits_pretty_N_go x s t :
  leading_digits (pretty_N_go x s +:+ t) =
  pretty_N_go x (leading_digits (s +:+ t)).
Proof.
  revert s. induction (N.lt_wf_0 x) as [x _ IH]; intros s.
  destruct (decide (x = 0)%N) as [-> | Hx]; [by rewrite !pretty_N_go_0 |].
  rewrite !(pretty_N_go_step x) by lia.
  rewrite IH by (apply N.div_lt; lia). simpl.
  destruct (pretty_N_char_digit (x `mod` 10)%N) as [-> _]; [| done].
  apply N.mod_lt. lia.
Qed.

Lemma pretty_N_go_nonempty x c s :
  ∃ c' d, pretty_N_go x (String c s) = String c' d.
Proof.
  revert c s. induction (N.lt_wf_0 x) as [x _ IH]; intros c s.
  destruct (decide (x = 0)%N) as [-> | Hx].
  - rewrite pretty_N_go_0. by eexists _, _.
  - rewrite pretty_N_go_step by lia. apply IH, N.div_lt; lia.
Qed.

Lemma pretty_nat_nonempty (n : nat) : ∃ c d, pretty n = String c d.
Proof.
  unfold pretty, pretty_nat, pretty, pretty_N. case_decide as Hn.
  - by eexists _, _.
  - rewrite pretty_N_go_step by lia. apply pretty_N_go_nonempty.
Qed.

(** The digits that follow "line " in the message of the decoder. *)
Lemma leading_digits_pretty (n : nat) (message : string) :
  leading_digits (pretty n +:+ ": " +:+ message) = pretty n.
Proof.
  unfold pretty, pretty_nat, pretty, pretty_N. case_decide as Hn; [done |].
  by rewrite leading_digits_pretty_N_go.
Qed.

(** The [catch] block reads the line number back out of the message of
    the decoder. *)
Lemma match_line_digits_decodeError (n : nat) (message : string) :
  match_line_digits (exn_message (decodeError n message)) = Some (pretty n).
Proof.
  unfold decodeError, exn_message.
  destruct (pretty_nat_nonempty n) as (c & d & Hn).
  set (rest := pretty n +:+ ": " +:+ message).
  assert (leading_digits rest = String c d) as Hdigits.
  { unfold rest. by rewrite leading_digits_pretty. }
  simpl. change ("" +:+ rest) with rest. by rewrite Hdigits, Hn.
Qed.

(** ** Decoder and assembler: failures, blank lines, buckets *)

Section ParserMore.
Context {Num : Type} `{!JSRuntime Num}.
Implicit Types (entry v : json Num) (lines pre post : list string)
               (g : Generator (json Num))
               (st : ParsedConversation (json Num) (json Num)).

Lemma catchBlock_decodeError st (n : nat) (message : string) :
  catchBlock st (decodeError n message) =
  Returned (pushError st {| line := n;
                            error := exn_message (decodeError n message);
                            content := "" |}).
Proof.
  unfold catchBlock.
  assert (includes "Failed to parse line"
                   (exn_message (decodeError n message)) = true) as ->
    by reflexivity.
  by rewrite match_line_digits_decodeError, parseInt_pretty.
Qed.

(** The decoder up to the first line that does not decode. *)
Lemma readLinesFrom_failure lineNumber pre bad post message :
  Forall decodes pre →
  nonBlank bad = true →
  JSON_parse bad = inr message →
  yielded (readLinesFrom lineNumber (pre ++ bad :: post)) = decoded pre ∧
  raised (readLinesFrom lineNumber (pre ++ bad :: post)) =
    Some (decodeError (lineNumber + length pre + 1) message).
Proof.
  intros Hall Hbad Hparse. revert lineNumber.
  induction Hall as [|line pre Hline _ IH]; intros lineNumber.
  - simpl app. rewrite readLinesFrom_cons, Hbad, Hparse. simpl.
    by rewrite Nat.add_0_r, Nat.add_1_r.
  - rewrite <- app_comm_cons, readLinesFrom_cons, decoded_cons.
    unfold decodes in Hline. simpl length.
    replace (lineNumber + S (length pre) + 1)
      with (S lineNumber + length pre + 1) by lia.
    destruct (nonBlank line); [| apply IH].
    destruct Hline as [entry ->]; [done |]. simpl.
    destruct (IH (S lineNumber)) as [-> ->]. done.
Qed.

(** When all lines decode, the decoder does not see the blank ones. *)
Lemma readLinesFrom_nonBlank lineNumber lineNumber' lines :
  Forall decodes lines →
  readLinesFrom lineNumber lines =
  readLinesFrom lineNumber' (List.filter nonBlank lines).
Proof.
  intros Hall. revert lineNumber lineNumber'.
  induction Hall as [|line lines Hline _ IH]; intros lineNumber lineNumber'.
  - done.
  - rewrite readLinesFrom_cons. unfold decodes in Hline. simpl List.filter.
    destruct (nonBlank line) eqn:Hblank; [| apply IH].
    rewrite readLinesFrom_cons, Hblank.
    destruct Hline as [entry ->]; [done |]. f_equal. apply IH.
Qed.

Lemma isConversationMessage_Threw entry e :
  isConversationMessage entry = Threw e →
  isObject entry = false ∧ e = uuidTypeError entry.
Proof.
  unfold isConversationMessage, in_operator.
  destruct entry; simpl; try (by intros [= <-]); try done.
  by destruct (bool_decide _).
Qed.

(** What can leave the loop: the exception of the decoder, or the
    [TypeError] of the guard on a yielded value that is not an object. *)
Lemma forAwait_exit g st st' e :
  forAwait g st = (st', Some e) →
  raised g = Some e ∨
  ∃ v, v ∈ yielded g ∧ isObject v = false ∧ e = uuidTypeError v.
Proof.
  revert st. induction g as [entry next IH| |e0]; intros st; simpl.
  - rewrite isSummaryMessage_returns.
    assert (∀ s, forAwait next s = (st', Some e) →
                 raised next = Some e ∨
                 ∃ v, v ∈ entry :: yielded next ∧ isObject v = false ∧
                      e = uuidTypeError v) as Hnext.
    { intros s [Hr | (v & Hv & Hobj & He)]%IH; [by left |].
      right. exists v. split; [by apply list_elem_of_further | done]. }
    destruct (recognizedSummary entry); [apply Hnext |].
    destruct (isConversationMessage entry) as [[]|e1] eqn:Hguard;
      [apply Hnext | apply Hnext |].
    intros [= <- <-]. right. exists entry.
    apply isConversationMessage_Threw in Hguard as [Hobj ->].
    split; [apply list_elem_of_here | done].
  - done.
  - intros [= <- <-]. by left.
Qed.

Lemma raised_readLinesFrom lineNumber lines e :
  raised (readLinesFrom lineNumber lines) = Some e →
  ∃ k message, e = decodeError k message.
Proof.
  revert lineNumber. induction lines as [|line lines IH]; intros lineNumber.
  - done.
  - rewrite readLinesFrom_cons. destruct (nonBlank line); [| apply IH].
    destruct (JSON_parse line) as [entry|message]; simpl; [apply IH |].
    intros [= <-]. by eexists _, _.
Qed.

(** The loop on objects and arrays, whatever ends the sequence. *)
Lemma forAwait_objects_any g st :
  Forall (fun entry => isObject entry = true) (yielded g) →
  ∃ st',
    forAwait g st = (st', raised g) ∧
    lineCount st' = lineCount st + length (yielded g) ∧
    filePath st' = filePath st ∧
    summaries st' =
      summaries st ++ List.filter recognizedSummary (yielded g) ∧
    messages st' =
      messages st ++ List.filter recognizedMessage (yielded g) ∧
    parseErrors st' =
      parseErrors st ++
      concat (imap (fun i entry =>
                      if unrecognized entry
                      then [unknownEntryError (lineCount st + i + 1) entry]
                      else [])
                   (yielded g)).
Proof.
  revert st. induction g as [entry next IH| |e]; intros st Hobj.
  - simpl in Hobj. apply Forall_cons in Hobj as [Hentry Hobj].
    cbn [forAwait yielded raised]. rewrite imap_cons.
    cbn [List.filter concat length].
    unfold unrecognized, recognizedMessage.
    rewrite isSummaryMessage_returns.
    destruct (isConversationMessage_object entry Hentry) as [b ->].
    destruct (recognizedSummary entry); [| destruct b];
      cbn [negb andb];
      match goal with
      | |- context [forAwait next ?s] =>
          destruct (IH s Hobj)
            as (st' & -> & Hcount & Hpath & Hsum & Hmsg & Herr)
      end;
      exists st'; rewrite Hcount, Hpath, Hsum, Hmsg, Herr;
      cbn [lineCount filePath summaries messages parseErrors
           pushSummary pushMessage pushError countLine];
      rewrite <- ?(assoc_L (++)).
    all: repeat split; try done; try (simpl; lia).
    all: simpl;
      repeat match goal with
             | |- _ ++ _ = _ ++ _ => f_equal
             | |- _ :: _ = _ :: _ => f_equal
             | |- concat _ = concat _ => f_equal
             end;
      try (unfold unknownEntryError; simpl; f_equal; lia).
    all: apply imap_ext; intros i x _; simpl;
      unfold unrecognized, recognizedMessage;
      by replace (S (lineCount st + i + 1))
           with (lineCount st + S i + 1) by lia.
  - exists st. simpl. by rewrite !app_nil_r, Nat.add_0_r.
  - exists st. simpl. by rewrite !app_nil_r, Nat.add_0_r.
Qed.

(** The three buckets share the entries among them. *)
Lemma length_buckets (entries : list (json Num)) (k : nat) :
  length (List.filter recognizedSummary entries) +
  length (List.filter recognizedMessage entries) +
  length (concat (imap (fun i entry =>
                          if unrecognized entry
                          then [unknownEntryError (k + i + 1) entry]
                          else [])
                       entries)) =
  length entries.
Proof.
  rewrite (length_concat_imap _ unrecognized)
    by (intros i x; by destruct (unrecognized x)).
  induction entries as [|entry entries IH]; [done |]. simpl.
  unfold unrecognized, recognizedMessage in *.
  destruct (recognizedSummary entry); simpl; [lia |].
  destruct (isConversationMessage entry) as [[]|]; simpl; lia.
Qed.
End ParserMore.

Section ParserExtras.
Context {Num : Type} `{!JSRuntime Num}.
Implicit Types (entry v : json Num) (lines pre post : list string).

(** X1. A line that does not decode ends the assembly with a recorded
    error, not with an exception: when the lines before it decode to
    objects or arrays, [parseConversation] returns what it assembled from
    those lines, with one more error whose [line] is the number of the
    failing line counted over all lines, blank ones included, and whose
    text names that line and the message of [JSON.parse]; the lines after
    it are not read. *)
Theorem parseConversation_decode_failure filePath pre bad post message :
  Forall decodes pre →
  Forall (fun entry => isObject entry = true) (decoded pre) →
  nonBlank bad = true →
  JSON_parse bad = inr message →
  parseConversation filePath (pre ++ bad :: post) =
  Returned
    {| summaries := List.filter recognizedSummary (decoded pre);
       messages := List.filter recognizedMessage (decoded pre);
       filePath := filePath;
       lineCount := length (List.filter nonBlank pre);
       parseErrors :=
         concat (imap (fun i entry =>
                         if unrecognized entry
                         then [unknownEntryError (i + 1) entry] else [])
                      (decoded pre)) ++
         [ {| line := length pre + 1;
              error := "Failed to parse line " +:+ pretty (length pre + 1) +:+
                       ": " +:+ message;
              content := "" |} ] |}.
Proof.
  intros Hdec Hobj Hbad Hparse.
  unfold parseConversation, readConversationLines.
  destruct (readLinesFrom_failure 0 pre bad post message Hdec Hbad Hparse)
    as [Hyield Hraised].
  rewrite <- Hyield in Hobj.
  edestruct (forAwait_objects_any (readLinesFrom 0 (pre ++ bad :: post)))
    as (st & -> & Hcount & Hpath & Hsum & Hmsg & Herr); [exact Hobj |].
  rewrite Hraised, catchBlock_decodeError. f_equal.
  destruct st as [ss ms fp lc pe]. simpl in *.
  rewrite Hyield in *. rewrite length_decoded in Hcount by done.
  by subst.
Qed.

(** X2. Iterated directly, [readConversationLines] yields the entries of
    the lines before the first one that does not decode, then throws an
    error that names the number of that line, blank lines counted, and
    the message of [JSON.parse]; it yields nothing for that line or after
    it. *)
Theorem readConversationLines_stops_at_failure pre bad post message :
  Forall decodes pre →
  nonBlank bad = true →
  JSON_parse bad = inr message →
  yielded (readConversationLines (pre ++ bad :: post)) = decoded pre ∧
  raised (readConversationLines (pre ++ bad :: post)) =
    Some {| exn_name := "Error";
            exn_message := "Failed to parse line " +:+
                           pretty (length pre + 1) +:+ ": " +:+ message |}.
Proof.
  intros Hdec Hbad Hparse.
  apply (readLinesFrom_failure 0 pre bad post message Hdec Hbad Hparse).
Qed.

(** X3. When every line decodes, blank lines change nothing: parsing the
    file and parsing it with the blank lines removed end the same way,
    with the same result or the same exception. *)
Theorem parseConversation_ignores_blank_lines filePath lines :
  Forall decodes lines →
  parseConversation filePath lines =
  parseConversation filePath (List.filter nonBlank lines).
Proof.
  intros Hdec. unfold parseConversation, readConversationLines.
  by rewrite (readLinesFrom_nonBlank 0 0 lines Hdec).
Qed.

(** X4. When every line decodes to an object or an array, each entry
    lands in exactly one bucket: [summaries] and [messages] are the
    recognized entries in file order, and the sizes of [summaries],
    [messages] and [parseErrors] add up to [lineCount]. *)
Theorem parseConversation_buckets filePath lines :
  Forall decodes lines →
  Forall (fun entry => isObject entry = true) (decoded lines) →
  ∃ r,
    parseConversation filePath lines = Returned r ∧
    summaries r = List.filter recognizedSummary (decoded lines) ∧
    messages r = List.filter recognizedMessage (decoded lines) ∧
    length (summaries r) + length (messages r) + length (parseErrors r) =
      lineCount r.
Proof.
  intros Hdec Hobj. unfold parseConversation, readConversationLines.
  destruct (readLinesFrom_decodes 0 lines Hdec) as [Hraised Hyield].
  rewrite <- Hyield in Hobj.
  edestruct (forAwait_objects_any (readLinesFrom 0 lines))
    as (r & -> & Hcount & _ & Hsum & Hmsg & Herr); [exact Hobj |].
  rewrite Hraised. exists r.
  rewrite Hcount, Hsum, Hmsg, Herr, Hyield. simpl.
  by rewrite (length_buckets (decoded lines) 0).
Qed.

Lemma readSourceFrom_lines lineNumber lines :
  readSourceFrom lineNumber (sourceOfLines lines) =
  readLinesFrom lineNumber lines.
Proof.
  revert lineNumber. induction lines as [|line lines IH]; intros lineNumber.
  - done.
  - simpl. rewrite IH. done.
Qed.

(** On a stream that ends with the end of the file, the two readings of
    [parseConversation] agree. *)
Lemma parseConversationFrom_lines filePath lines :
  parseConversationFrom filePath (sourceOfLines lines) =
  parseConversation filePath lines.
Proof.
  unfold parseConversationFrom, parseConversation, readConversationLines.
  by rewrite readSourceFrom_lines.
Qed.

Lemma raised_readSourceFrom lineNumber source e :
  raised (readSourceFrom lineNumber source) = Some e →
  (∃ k message, e = decodeError k message) ∨ streamError source = Some e.
Proof.
  revert lineNumber.
  induction source as [line rest IH| |e0]; intros lineNumber; simpl.
  - case_bool_decide; [apply IH |].
    destruct (JSON_parse line) as [entry|message]; simpl; [apply IH |].
    intros [= <-]. left. by eexists _, _.
  - done.
  - intros [= <-]. by right.
Qed.

(** X5. [parseConversation] ends with an exception in two cases only:
    the [TypeError] of the guard on a decoded value that is neither an
    object nor an array, and an error of the read stream itself (a file
    that cannot be opened, a failed read) whose message does not contain
    "Failed to parse line"; such a stream error is thrown again as it is.
    The error of a line that does not decode never reaches the caller.
    On a stream that delivers its lines and ends, the outcome is the one
    of [parseConversation] on these lines. *)
Theorem parseConversation_exceptions filePath :
  (∀ source e,
     parseConversationFrom filePath source = Threw e →
     (∃ v, v ∈ yielded (readSourceFrom 0 source) ∧
           isObject v = false ∧ e = uuidTypeError v) ∨
     (streamError source = Some e ∧
      includes "Failed to parse line" (exn_message e) = false)) ∧
  (∀ e,
     includes "Failed to parse line" (exn_message e) = false →
     parseConversationFrom filePath (StreamError e) = Threw e) ∧
  (∀ lines,
     parseConversationFrom filePath (sourceOfLines lines) =
     parseConversation filePath lines).
Proof.
  split; [| split; [| apply parseConversationFrom_lines]].
  - intros source e. unfold parseConversationFrom.
    destruct (forAwait _ _) as [st [error|]] eqn:Hloop; [| done].
    intros Hcatch.
    assert (error = e ∧
            includes "Failed to parse line" (exn_message e) = false)
      as [-> Hmarker].
    { unfold catchBlock in Hcatch.
      destruct (includes _ _) eqn:Hinc;
        [by destruct (match_line_digits _) |].
      injection Hcatch as ->. done. }
    apply forAwait_exit in Hloop as [Hraised | Hguard]; [| by left].
    apply raised_readSourceFrom in Hraised as [(k & message & ->) | Hstream].
    + by rewrite catchBlock_decodeError in Hcatch.
    + by right.
  - intros e Hmarker. unfold parseConversationFrom. simpl.
    by apply catchBlock_rethrows.
Qed.
End ParserExtras.

Section ParserExtrasExamples.
Import Examples.

Local Ltac lines_decode :=
  repeat (apply Forall_cons_2;
          [ unfold decodes;
            first [ intros _; eexists; reflexivity
                  | intros Hblank; vm_compute in Hblank; discriminate ] |]);
  apply Forall_nil_2.

Lemma parseConversation_decode_failure_witness :
  parseConversation "log.jsonl"
    [stringify summary_m2; ""; stringify ping; "{oops"; "null"] =
  Returned
    {| summaries := [summary_m2]; messages := [];
       filePath := "log.jsonl"; lineCount := 2;
       parseErrors :=
         [ {| line := 2; error := "Unknown entry type";
              content := stringify ping |};
           {| line := 4;
              error := "Failed to parse line 4: Unexpected token in JSON";
              content := "" |} ] |}.
Proof.
  refine (parseConversation_decode_failure "log.jsonl"
            [stringify summary_m2; ""; stringify ping] "{oops" ["null"]
            "Unexpected token in JSON" _ _ _ _);
    [lines_decode | | reflexivity | reflexivity].
  repeat (apply Forall_cons_2; [reflexivity |]). apply Forall_nil_2.
Defined.

Lemma readConversationLines_stops_at_failure_witness :
  yielded (readConversationLines [""; "[]"; " "; "{oops"; "42"]) = [JArr []] ∧
  raised (readConversationLines [""; "[]"; " "; "{oops"; "42"]) =
    Some {| exn_name := "Error";
            exn_message :=
              "Failed to parse line 4: Unexpected token in JSON" |}.
Proof.
  refine (readConversationLines_stops_at_failure
            [""; "[]"; " "] "{oops" ["42"] "Unexpected token in JSON" _ _ _);
    [lines_decode | reflexivity | reflexivity].
Defined.

Lemma parseConversation_ignores_blank_lines_witness :
  parseConversation "log.jsonl" [""; stringify user_m1; "  "; "[]"] =
  parseConversation "log.jsonl" [stringify user_m1; "[]"].
Proof.
  refine (parseConversation_ignores_blank_lines "log.jsonl"
            [""; stringify user_m1; "  "; "[]"] _).
  lines_decode.
Defined.

Lemma parseConversation_buckets_witness :
  ∃ r,
    parseConversation "log.jsonl"
      [stringify summary_m2; stringify user_m1; "[]"] = Returned r ∧
    summaries r = [summary_m2] ∧ messages r = [user_m1] ∧
    length (summaries r) + length (messages r) + length (parseErrors r) =
      lineCount r.
Proof.
  refine (parseConversation_buckets "log.jsonl"
            [stringify summary_m2; stringify user_m1; "[]"] _ _);
    [lines_decode |].
  repeat (apply Forall_cons_2; [reflexivity |]). apply Forall_nil_2.
Defined.

(** A path that cannot be opened, and a file whose second line is [42]. *)
Lemma parseConversation_exceptions_witness :
  parseConversationFrom "missing.jsonl"
    (StreamError
       {| exn_name := "Error";
          exn_message := "ENOENT: no such file or directory, open " +:+
                         "'missing.jsonl'" |}) =
  Threw {| exn_name := "Error";
           exn_message := "ENOENT: no such file or directory, open " +:+
                          "'missing.jsonl'" |} ∧
  ((∃ v, v ∈ yielded (readSourceFrom 0 (sourceOfLines ["[]"; "42"])) ∧
         isObject v = false ∧
         {| exn_name := "TypeError";
            exn_message :=
              "Cannot use 'in' operator to search for 'uuid' in 42" |} =
         uuidTypeError v) ∨
   (streamError (sourceOfLines ["[]"; "42"]) =
      Some {| exn_name := "TypeError";
              exn_message :=
                "Cannot use 'in' operator to search for 'uuid' in 42" |} ∧
    includes "Failed to parse line"
             "Cannot use 'in' operator to search for 'uuid' in 42" = false)).
Proof.
  split.
  - refine (proj1 (proj2 (parseConversation_exceptions "missing.jsonl")) _ _).
    reflexivity.
  - refine (proj1 (parseConversation_exceptions "log.jsonl")
                  (sourceOfLines ["[]"; "42"]) _ _).
    reflexivity.
Defined.
End ParserExtrasExamples.

(** ** Validator: clean conversations, positions of the errors *)

Section ConcatImapMore.
Context {A B : Type}.
Implicit Types (f : nat → A → list B) (l : list A).

Lemma elem_of_concat_imap f l (y : B) :
  y ∈ concat (imap f l) ↔ ∃ i x, l !! i = Some x ∧ y ∈ f i x.
Proof.
  revert f. induction l as [|a l IH]; intros f.
  - simpl. split; [by intros ?%elem_of_nil | by intros (i & x & ? & _)].
  - rewrite imap_cons. simpl. rewrite elem_of_app, IH. split.
    + intros [Hy | (i & x & Hi & Hy)]; [by exists 0, a | by exists (S i), x].
    + intros ([|i] & x & Hi & Hy); simpl in Hi.
      * injection Hi as ->. by left.
      * right. by exists i, x.
Qed.

Lemma concat_imap_nil_iff f l :
  concat (imap f l) = [] ↔ ∀ i x, l !! i = Some x → f i x = [].
Proof.
  split; [| apply concat_imap_nil].
  intros Hnil i x Hi. destruct (f i x) as [|y ys] eqn:Hf; [done |].
  assert (y ∈ concat (imap f l)) as Hy.
  { apply elem_of_concat_imap. exists i, x. rewrite Hf.
    split; [done | apply list_elem_of_here]. }
  rewrite Hnil in Hy. by apply elem_of_nil in Hy.
Qed.
End ConcatImapMore.

Section ValidatorMore.
Context {Num : Type}.
Implicit Types (m : ConversationMessage Num)
               (msgs : list (ConversationMessage Num))
               (result : Conversation Num).

(** The second pass, with the test as the code makes it. *)
Lemma orphanPass_general offset index msgs (ids : gset string) :
  orphanPass offset index msgs ids [] =
  concat (imap (fun i m =>
                  match orphanCheck ids m with
                  | Some p => [orphanError offset (index + i) p]
                  | None => []
                  end)
               msgs).
Proof.
  revert index. induction msgs as [|m msgs IH]; intros index; [done |].
  rewrite imap_cons. simpl. rewrite orphanPass_app. f_equal.
  - rewrite Nat.add_0_r. by destruct (orphanCheck ids m).
  - rewrite IH. f_equal. apply imap_ext. intros i x _. simpl.
    by rewrite Nat.add_succ_r.
Qed.

Lemma orphanErrorsOf_general result :
  orphanErrorsOf result =
  concat (imap (fun i m =>
                  match parentUuid m with
                  | Some p =>
                      if bool_decide (p = "") then []
                      else if bool_decide (p ∈ uuid <$> messages result)
                           then []
                           else [orphanError (length (summaries result)) i p]
                  | None => []
                  end)
               (messages result)).
Proof.
  unfold orphanErrorsOf. rewrite orphanPass_general.
  f_equal. apply imap_ext. intros i m _. simpl. unfold orphanCheck.
  destruct (parentUuid m) as [p|]; [| done].
  rewrite (bool_decide_ext _ _ (duplicatePass_ids result p)).
  by repeat case_bool_decide.
Qed.

Lemma NoDup_uuid_earlier msgs :
  NoDup (uuid <$> msgs) ↔
  ∀ i m, msgs !! i = Some m → uuid m ∉ uuid <$> take i msgs.
Proof.
  rewrite NoDup_alt. split.
  - intros Hnd i m Hi (j & x & Hlt & Hj & Hx)%elem_of_earlier_uuids.
    assert (j = i); [| lia].
    apply (Hnd j i (uuid m)); rewrite list_lookup_fmap.
    + by rewrite Hj, <- Hx.
    + by rewrite Hi.
  - intros Hearly i j u Hi Hj.
    apply list_lookup_fmap_Some in Hi as (x & -> & Hi).
    apply list_lookup_fmap_Some in Hj as (y & Hxy & Hj).
    destruct (Nat.lt_trichotomy i j) as [Hlt | [-> | Hlt]]; [| done |].
    + exfalso. apply (Hearly j y Hj). apply elem_of_earlier_uuids.
      by exists i, x.
    + exfalso. apply (Hearly i x Hi). apply elem_of_earlier_uuids.
      by exists j, y.
Qed.

(** Validation finds nothing exactly on the conversations whose
    identifiers are distinct and whose non-empty parents all exist. *)
Lemma validationErrors_nil result :
  validationErrors result = [] ↔
  NoDup (uuid <$> messages result) ∧
  ∀ m p, m ∈ messages result → parentUuid m = Some p → p ≠ "" →
         p ∈ uuid <$> messages result.
Proof.
  rewrite validationErrors_split, app_nil.
  rewrite duplicateErrorsOf_spec, orphanErrorsOf_general.
  unfold expectedDuplicates. rewrite !concat_imap_nil_iff, NoDup_uuid_earlier.
  f_equiv.
  - split; intros Hall i m Hi.
    + specialize (Hall i m Hi). by case_bool_decide.
    + rewrite bool_decide_eq_false_2; [done | by apply Hall].
  - split.
    + intros Hall m p [i Hi]%list_elem_of_lookup Hp Hne.
      specialize (Hall i m Hi). rewrite Hp in Hall.
      rewrite bool_decide_eq_false_2 in Hall by done.
      by case_bool_decide.
    + intros Hall i m Hi. destruct (parentUuid m) as [p|] eqn:Hp; [| done].
      case_bool_decide as Hempty; [done |].
      rewrite bool_decide_eq_true_2; [done |].
      apply (Hall m p); [by apply list_elem_of_lookup_2 in Hi | done | done].
Qed.

(** X6. [parseAndValidateConversation] leaves [parseErrors] as it found
    them exactly when the message identifiers are pairwise distinct and
    every non-null, non-empty [parentUuid] is the identifier of a message
    of the conversation, wherever that message stands in the list. *)
Theorem validation_adds_nothing_iff_well_formed result :
  parseErrors (parseAndValidateConversation result) = parseErrors result ↔
  NoDup (uuid <$> messages result) ∧
  ∀ m p, m ∈ messages result → parentUuid m = Some p → p ≠ "" →
         p ∈ uuid <$> messages result.
Proof.
  rewrite <- validationErrors_nil. simpl. split.
  - intros Heq. apply (app_inv_head (parseErrors result)).
    by rewrite app_nil_r.
  - intros ->. by rewrite app_nil_r.
Qed.

(** X7. Every error that validation appends has an empty [content] and a
    [line] between [summaries.length + 1] and
    [summaries.length + messages.length]: the position of the message in
    [messages], moved by the number of summaries. *)
Theorem validation_error_positions result e :
  e ∈ validationErrors result →
  length (summaries result) < line e ≤
    length (summaries result) + length (messages result) ∧
  content e = "".
Proof.
  rewrite validationErrors_split, elem_of_app.
  rewrite duplicateErrorsOf_spec, orphanErrorsOf_general.
  unfold expectedDuplicates. rewrite !elem_of_concat_imap.
  intros [(i & m & Hi & He) | (i & m & Hi & He)];
    apply lookup_lt_Some in Hi.
  - case_bool_decide; [| by apply elem_of_nil in He].
    apply list_elem_of_singleton in He as ->. simpl. split; [lia | done].
  - destruct (parentUuid m) as [p|]; [| by apply elem_of_nil in He].
    repeat case_bool_decide; try (by apply elem_of_nil in He).
    apply list_elem_of_singleton in He as ->. simpl. split; [lia | done].
Qed.
End ValidatorMore.

Section ValidatorOrphans.
Context {Num : Type}.
Implicit Types (m : ConversationMessage Num)
               (result : Conversation Num).

Lemma filter_concat_imap {A B} (P : B → Prop) `{∀ y, Decision (P y)}
    (f : nat → A → list B) (l : list A) :
  filter P (concat (imap f l)) =
  concat (imap (fun i x => filter P (f i x)) l).
Proof.
  revert f. induction l as [|a l IH]; intros f; [done |].
  rewrite !imap_cons. simpl. by rewrite filter_app, (IH (f ∘ S)).
Qed.

(** C3 (amended). In every conversation, each message whose [parentUuid]
    is a non-empty string that is the identifier of no message is flagged
    exactly once, at its own position: the second pass of
    [parseAndValidateConversation] appends, in message order, one orphan
    error for each such message, whatever the other messages are, so
    children that share a missing parent get one error each.  Among the
    errors of the second pass exactly one carries the line of such a
    message, and their number is the number of such messages. *)
Theorem orphan_errors_one_per_message result :
  parseErrors (parseAndValidateConversation result) =
    parseErrors result ++ duplicateErrorsOf result ++
    expectedOrphans (length (summaries result)) (messages result) ∧
  (∀ i m p,
     messages result !! i = Some m →
     parentUuid m = Some p →
     p ≠ "" →
     p ∉ uuid <$> messages result →
     filter (fun e => line e = i + length (summaries result) + 1)
            (orphanErrorsOf result) =
       [orphanError (length (summaries result)) i p]) ∧
  length (orphanErrorsOf result) =
    length (List.filter
              (fun m => orphaned (messages result) m &&
                        negb (bool_decide (parentUuid m = Some "")))
              (messages result)).
Proof.
  assert (orphanErrorsOf result =
          expectedOrphans (length (summaries result)) (messages result))
    as Hspec by apply orphanErrorsOf_general.
  split; [by rewrite parseAndValidateConversation_errors, Hspec |].
  rewrite Hspec. unfold expectedOrphans. split.
  - intros i m p Hi Hp Hne Hmissing.
    rewrite filter_concat_imap, (concat_imap_single _ _ i m Hi).
    + rewrite Hp, bool_decide_eq_false_2, bool_decide_eq_false_2 by done.
      rewrite filter_cons, decide_True by done. done.
    + intros j y Hj Hji. destruct (parentUuid y) as [q|]; [| done].
      repeat case_bool_decide; try done.
      rewrite filter_cons, decide_False; [done |]. simpl. lia.
  - apply length_concat_imap. intros i x. unfold orphaned.
    destruct (parentUuid x) as [q|]; [| done].
    rewrite bool_decide_not.
    destruct (decide (q = "")) as [-> | Hq].
    + rewrite bool_decide_eq_true_2 by done.
      rewrite (bool_decide_eq_true_2 (Some "" = Some "")) by done.
      by rewrite andb_false_r.
    + rewrite (bool_decide_eq_false_2 (q = "")) by done.
      rewrite (bool_decide_eq_false_2 (Some q = Some "")) by congruence.
      rewrite andb_true_r. by case_bool_decide.
Qed.
End ValidatorOrphans.

Section ValidatorExtrasExamples.
Import Examples.

(** A message with the empty string as parent, then two children of the
    same missing parent: each child is flagged once, at its own line. *)
Lemma orphan_errors_witness :
  filter (fun e => line e = 2)
         (orphanErrorsOf
            (conv [] [msg "x" (Some ""); msg "y" (Some "gone");
                      msg "z" (Some "gone")])) =
    [orphanError 0 1 "gone"] ∧
  filter (fun e => line e = 3)
         (orphanErrorsOf
            (conv [] [msg "x" (Some ""); msg "y" (Some "gone");
                      msg "z" (Some "gone")])) =
    [orphanError 0 2 "gone"].
Proof.
  split.
  - apply (proj1 (proj2 (orphan_errors_one_per_message
                           (conv [] [msg "x" (Some ""); msg "y" (Some "gone");
                                     msg "z" (Some "gone")])))
                 1 (msg "y" (Some "gone")) "gone");
      [reflexivity | reflexivity | discriminate |].
    apply (bool_decide_unpack _). vm_compute. exact I.
  - apply (proj1 (proj2 (orphan_errors_one_per_message
                           (conv [] [msg "x" (Some ""); msg "y" (Some "gone");
                                     msg "z" (Some "gone")])))
                 2 (msg "z" (Some "gone")) "gone");
      [reflexivity | reflexivity | discriminate |].
    apply (bool_decide_unpack _). vm_compute. exact I.
Defined.

Lemma validation_error_positions_witness :
  2 < line (duplicateError 2 1 A) ≤ 2 + 2 ∧
  content (duplicateError 2 1 A) = "".
Proof.
  apply (validation_error_positions (conv [leaf "a"; leaf "b"] [A; A])).
  vm_compute. apply list_elem_of_here.
Defined.

(** A parent that stands later in the file is found. *)
Example validation_forward_reference :
  parseErrors (parseAndValidateConversation (conv [leaf "c"] [C; B; A; root]))
  = [].
Proof. reflexivity. Qed.
End ValidatorExtrasExamples.

(** ** Statistics: counts *)

Section CountMaps.
Context `{Countable K} {A : Type}.
Implicit Types (key : A → K) (l : list A).

(** A map filled with [increment] holds, for each key that occurs, the
    number of elements carrying it. *)
Lemma increment_fold_lookup key l (k : K) :
  foldl (fun counts x => increment (key x) counts) ∅ l !! k =
  if bool_decide
       (length (List.filter (fun x => bool_decide (key x = k)) l) = 0)
  then None
  else Some (length (List.filter (fun x => bool_decide (key x = k)) l)).
Proof.
  induction l as [|x l IH] using rev_ind; [done |].
  rewrite foldl_app, List.filter_app, length_app. simpl.
  unfold increment in *.
  destruct (decide (key x = k)) as [->|Hne].
  - rewrite lookup_insert_eq, IH.
    rewrite (bool_decide_eq_true_2 (k = k)) by done. simpl.
    rewrite (bool_decide_eq_false_2 (_ + 1 = 0)) by lia.
    case_bool_decide as Hz; [by rewrite Hz | done].
  - rewrite lookup_insert_ne, IH by done.
    rewrite (bool_decide_eq_false_2 (key x = k)) by done. simpl.
    by rewrite Nat.add_0_r.
Qed.
End CountMaps.

Section StatsMore.
Context {Num : Type} `{!JSNumber Num}.
Implicit Types (m : ConversationMessage Num)
               (msgs : list (ConversationMessage Num))
               (conversation : Conversation Num).

Lemma filter_filter {A} (f g : A → bool) (l : list A) :
  List.filter f (List.filter g l) = List.filter (fun x => g x && f x) l.
Proof.
  induction l as [|x l IH]; [done |]. simpl.
  destruct (g x); simpl; [destruct (f x) |]; by rewrite IH.
Qed.

(** X8. Every message is counted once as a user message or once as an
    assistant message: [messageCount] is the sum of [userMessageCount]
    and [assistantMessageCount]. *)
Theorem messageCount_is_user_plus_assistant conversation :
  messageCount (calculateConversationStats conversation) =
  userMessageCount (calculateConversationStats conversation) +
  assistantMessageCount (calculateConversationStats conversation).
Proof.
  unfold calculateConversationStats.
  destruct (messages conversation) as [|m0 msgs]; [done |].
  cbn [messageCount userMessageCount assistantMessageCount].
  induction (m0 :: msgs) as [|m l IH]; [done |].
  simpl. destruct m; simpl; lia.
Qed.

(** X9. [models] maps a model name to the number of assistant messages
    that use it, and holds no entry for a name that no assistant message
    uses; user messages do not count. *)
Theorem models_count_assistant_messages conversation (name : string) :
  models (calculateConversationStats conversation) !! name =
  if bool_decide (modelUses name (messages conversation) = 0) then None
  else Some (modelUses name (messages conversation)).
Proof.
  unfold calculateConversationStats, modelUses.
  destruct (messages conversation) as [|m0 msgs]; [done |].
  cbn [models]. rewrite increment_fold_lookup. by rewrite filter_filter.
Qed.

Lemma occurrences_cons p m msgs :
  occurrences p (m :: msgs) =
  (if bool_decide (parentUuid m = p) then 1 else 0) + occurrences p msgs.
Proof. unfold occurrences. simpl. by case_bool_decide. Qed.

Lemma occurrences_0 p msgs :
  occurrences p msgs = 0 ↔ p ∉ parentUuid <$> msgs.
Proof.
  induction msgs as [|m msgs IH].
  - split; [intros _; apply not_elem_of_nil | done].
  - rewrite occurrences_cons, fmap_cons, not_elem_of_cons, <- IH.
    case_bool_decide as Hp.
    + split; [lia | by intros [? _]].
    + split; [intros Hz; split; [congruence | lia] | intros [_ Hz]; lia].
Qed.

Lemma NoDup_parents msgs :
  NoDup (parentUuid <$> msgs) ↔ ∀ p, occurrences p msgs ≤ 1.
Proof.
  induction msgs as [|m msgs IH].
  - split; [intros _ p; by unfold occurrences; simpl; lia | constructor].
  - rewrite fmap_cons, NoDup_cons, IH, <- occurrences_0. split.
    + intros [Hfresh Hall] p. rewrite occurrences_cons.
      case_bool_decide as Hp; [subst p; lia | apply Hall].
    + intros Hall. split.
      * specialize (Hall (parentUuid m)). rewrite occurrences_cons in Hall.
        rewrite bool_decide_eq_true_2 in Hall by done. lia.
      * intros p. specialize (Hall p). rewrite occurrences_cons in Hall. lia.
Qed.

(** The parent values that more than one message carries. *)
Lemma countBranches_forks msgs :
  ∃ forks : list (option string),
    NoDup forks ∧
    (∀ p, p ∈ forks ↔ 1 < occurrences p msgs) ∧
    countBranches (childrenCount msgs) = length forks.
Proof.
  exists (filter (fun kv => 1 < kv.2) (map_to_list (childrenCount msgs))).*1.
  split; [| split].
  - eapply sublist_NoDup;
      [apply (NoDup_fst_map_to_list (childrenCount msgs)) |].
    apply fmap_sublist, sublist_filter.
  - intros p. rewrite list_elem_of_fmap. split.
    + intros ([k c] & -> & [Hc Hin]%list_elem_of_filter). simpl in *.
      apply elem_of_map_to_list, childrenCount_lookup_Some in Hin. lia.
    + intros Hp. exists (p, occurrences p msgs). split; [done |].
      apply list_elem_of_filter. split; [done |].
      apply elem_of_map_to_list, childrenCount_lookup_Some. lia.
  - by rewrite length_fmap, <- countBranches_length.
Qed.

Lemma branches_unfold conversation :
  branches (calculateConversationStats conversation) =
  countBranches (childrenCount (messages conversation)).
Proof.
  unfold calculateConversationStats.
  by destruct (messages conversation).
Qed.

(** X10. [branches] is 0 exactly when no two messages carry the same
    [parentUuid], null included: at most one message for each parent
    value. *)
Theorem branches_zero_iff_parents_distinct conversation :
  branches (calculateConversationStats conversation) = 0 ↔
  NoDup (parentUuid <$> messages conversation).
Proof.
  rewrite branches_unfold, NoDup_parents.
  destruct (countBranches_forks (messages conversation))
    as (forks & _ & Hforks & ->).
  split.
  - intros Hnil%nil_length_inv p. subst forks.
    destruct (decide (1 < occurrences p (messages conversation)))
      as [Hp | Hp]; [| lia].
    apply Hforks in Hp. by apply elem_of_nil in Hp.
  - intros Hall. destruct forks as [|p forks]; [done |].
    specialize (Hall p).
    assert (1 < occurrences p (messages conversation)); [| lia].
    apply Hforks, list_elem_of_here.
Qed.

Lemma sum_parent_indicator m (ps : list (option string)) :
  NoDup ps →
  sum_list_with (fun p => if bool_decide (parentUuid m = p) then 1 else 0) ps
  ≤ 1.
Proof.
  induction 1 as [|p ps Hfresh _ IH]; simpl; [lia |].
  case_bool_decide as Hp; [| lia]. subst p.
  rewrite (sum_list_with_ext_in _ (fun _ => 0)).
  - clear. induction ps; simpl; lia.
  - intros p Hin. rewrite bool_decide_eq_false_2; [done |].
    intros Heq. apply Hfresh. by rewrite Heq.
Qed.

Lemma sum_occurrences_le msgs (ps : list (option string)) :
  NoDup ps →
  sum_list_with (fun p => occurrences p msgs) ps ≤ length msgs.
Proof.
  intros Hnd. induction msgs as [|m msgs IH].
  - clear. induction ps; simpl; [lia | done].
  - rewrite (sum_list_with_ext_in _ _ ps
               (fun p _ => occurrences_cons p m msgs)).
    rewrite sum_list_with_add. pose proof (sum_parent_indicator m ps Hnd).
    simpl. lia.
Qed.

(** X11. Every branch point takes at least two messages, and no message
    belongs to two of them: twice [branches] is at most [messageCount]. *)
Theorem branches_at_most_half_messageCount conversation :
  2 * branches (calculateConversationStats conversation) ≤
  messageCount (calculateConversationStats conversation).
Proof.
  rewrite branches_unfold.
  assert (messageCount (calculateConversationStats conversation) =
          length (messages conversation)) as ->.
  { unfold calculateConversationStats.
    by destruct (messages conversation). }
  destruct (countBranches_forks (messages conversation))
    as (forks & Hnd & Hforks & ->).
  pose proof (sum_occurrences_le (messages conversation) forks Hnd) as Hle.
  assert (2 * length forks
          ≤ sum_list_with (fun p => occurrences p (messages conversation))
                          forks); [| lia].
  assert (∀ p, p ∈ forks → 2 ≤ occurrences p (messages conversation))
    as Hge by (intros p Hp%Hforks; lia).
  clear -Hge. induction forks as [|p forks IH]; simpl; [lia |].
  pose proof (Hge p (list_elem_of_here _ _)).
  assert (2 * length forks
          ≤ sum_list_with (fun p => occurrences p (messages conversation))
                          forks); [| lia].
  apply IH. intros q Hq. apply Hge. by apply list_elem_of_further.
Qed.
End StatsMore.

(** ** Tree builder: shape of the forest *)

Section TreeShape.
Context {Num : Type}.
Implicit Types (m : ConversationMessage Num)
               (msgs : list (ConversationMessage Num))
               (n : ConversationNode Num).

Lemma elem_of_concat {A} (x : A) (ls : list (list A)) :
  x ∈ concat ls ↔ ∃ l, x ∈ l ∧ l ∈ ls.
Proof.
  induction ls as [|l ls IH]; simpl.
  - split; [by intros ?%elem_of_nil | by intros (l & _ & ?%elem_of_nil)].
  - rewrite elem_of_app, IH. split.
    + intros [Hx | (l' & Hx & Hl')].
      * exists l. split; [done | apply list_elem_of_here].
      * exists l'. split; [done | by apply list_elem_of_further].
    + intros (l' & Hx & [-> | Hl']%elem_of_cons); [by left |].
      right. by exists l'.
Qed.

Lemma buildNode_shape msgs fuel m n :
  buildNode fuel (buildMaps msgs).2 m = Some n →
  nodeMessage n = m ∧
  ∀ n', n' ∈ allNodes n →
        nodeMessage <$> nodeChildren n' =
        childrenOf msgs (Some (uuid (nodeMessage n'))).
Proof.
  revert m n. induction fuel as [|fuel IH]; intros m n; [done |].
  change (buildNode (S fuel) ?cm m) with
    (kids ← mapM (buildNode fuel cm) (default [] (cm !! Some (uuid m)));
     Some (Node m kids)).
  rewrite buildMaps_children.
  destruct (mapM _ _) as [kids|] eqn:Hkids; [| done].
  intros [= <-]. split; [done |].
  apply mapM_Some in Hkids.
  assert (nodeMessage <$> kids = childrenOf msgs (Some (uuid m)) ∧
          ∀ k n', k ∈ kids → n' ∈ allNodes k →
                  nodeMessage <$> nodeChildren n' =
                  childrenOf msgs (Some (uuid (nodeMessage n'))))
    as [Hroot Hbelow].
  { induction Hkids as [|x k xs ks Hx _ [IHm IHb]].
    - split; [done |]. by intros k n' ?%elem_of_nil.
    - apply IH in Hx as [Hx Hk]. split.
      + by rewrite fmap_cons, Hx, IHm.
      + intros k' n' [-> | Hk']%elem_of_cons; [apply Hk | by apply IHb]. }
  intros n'. simpl.
  intros [-> | Hin]%elem_of_cons; [done |].
  apply elem_of_concat in Hin as (l & Hn' & Hl).
  apply list_elem_of_fmap in Hl as (k & -> & Hk). by apply (Hbelow k).
Qed.

(** X12. In the forest that [buildConversationTree] returns, the roots
    are the messages without parent, in list order, and at every depth
    the children of a node are the messages that name the node's
    identifier as parent, in list order. *)
Theorem buildConversationTree_shape fuel msgs forest :
  buildConversationTree fuel msgs = Some forest →
  nodeMessage <$> forest = childrenOf msgs None ∧
  ∀ n, n ∈ forest ≫= allNodes →
       nodeMessage <$> nodeChildren n =
       childrenOf msgs (Some (uuid (nodeMessage n))).
Proof.
  unfold buildConversationTree.
  destruct (buildMaps msgs) as [messageMap childrenMap] eqn:Hmaps.
  replace childrenMap with (buildMaps msgs).2 by by rewrite Hmaps.
  rewrite buildMaps_children. intros Hforest%mapM_Some.
  induction Hforest as [|x k xs ks Hx _ [IHm IHb]].
  - split; [done |]. by intros n ?%elem_of_nil.
  - apply buildNode_shape in Hx as [Hx Hk]. split.
    + by rewrite fmap_cons, Hx, IHm.
    + intros n. rewrite bind_cons, elem_of_app.
      intros [Hn | Hn]; [by apply Hk | by apply IHb].
Qed.
End TreeShape.

Section TreeShapeExamples.
Import Examples.

Lemma buildConversationTree_shape_witness :
  nodeMessage <$> [Node root [Node A []; Node (msg "a2" (Some "root")) []];
                   Node (msg "r2" None) []] =
    childrenOf [root; A; msg "r2" None; msg "a2" (Some "root")] None ∧
  ∀ n, n ∈ [Node root [Node A []; Node (msg "a2" (Some "root")) []];
            Node (msg "r2" None) []] ≫= allNodes →
       nodeMessage <$> nodeChildren n =
       childrenOf [root; A; msg "r2" None; msg "a2" (Some "root")]
                  (Some (uuid (nodeMessage n))).
Proof.
  apply (buildConversationTree_shape 2
           [root; A; msg "r2" None; msg "a2" (Some "root")]).
  reflexivity.
Defined.
End TreeShapeExamples.

(** ** Active branch: shape of the walk *)

Section BranchShape.
Context {Num : Type}.
Implicit Types (m x : ConversationMessage Num)
               (msgs branch : list (ConversationMessage Num))
               (conversation : Conversation Num).

(** The loop extends a chain upwards and stops at a message whose parent
    is null or unknown. *)
Lemma traceBack_chain msgs fuel cur x branch result :
  traceBack fuel (messageMapOf msgs) cur (x :: branch) = Some result →
  chained (x :: branch) →
  parentUuid x = cur →
  chained result ∧
  last result = last (x :: branch) ∧
  ∃ first, head result = Some first ∧
           (parentUuid first = None ∨
            ∃ p, parentUuid first = Some p ∧ messageMapOf msgs !! p = None).
Proof.
  revert cur x branch.
  induction fuel as [|fuel IH]; intros cur x branch; simpl; [done |].
  destruct cur as [u|].
  - destruct (messageMapOf msgs !! u) as [message|] eqn:Hu.
    + intros Hrun Hchain Hx.
      apply messageMapOf_Some in Hu as [_ <-].
      destruct (IH _ _ _ Hrun) as (Hres & Hlast & Hfirst); [| done |].
      { by split. }
      split; [done |]. split; [| done].
      rewrite Hlast. by rewrite (last_cons_cons message).
    + intros [= <-] Hchain Hx. split; [done |]. split; [done |].
      exists x. split; [done |]. right. by exists u.
  - intros [= <-] Hchain Hx. split; [done |]. split; [done |].
    exists x. split; [done |]. by left.
Qed.

(** The walk from a leaf that is found. *)
Lemma getActiveBranch_walk fuel conversation s0 branch :
  head (summaries conversation) = Some s0 →
  (∃ m, m ∈ messages conversation ∧ uuid m = leafUuid s0) →
  getActiveBranch fuel conversation = Some branch →
  ∃ leaf rest fuel',
    messageMapOf (messages conversation) !! leafUuid s0 = Some leaf ∧
    traceBack fuel' (messageMapOf (messages conversation))
              (parentUuid leaf) (leaf :: rest) = Some branch ∧
    rest = [].
Proof.
  intros Hs0 (m & Hm & Hleaf). unfold getActiveBranch.
  destruct (summaries conversation) as [|s ss]; [done |].
  injection Hs0 as ->.
  destruct (messages conversation) as [|m0 ms] eqn:Hms;
    [by apply elem_of_nil in Hm |].
  fold (messageMapOf (m0 :: ms)).
  destruct (messageMapOf (m0 :: ms) !! leafUuid s0) as [leaf|] eqn:Hmap.
  - rewrite bool_decide_eq_true_2 by by eexists.
    destruct fuel as [|fuel]; [done |]. simpl. rewrite Hmap.
    intros Hrun. by exists leaf, [], fuel.
  - exfalso. eapply messageMapOf_None in Hmap; [| exact Hm]. done.
Qed.

(** X13. When a message carries the first summary's [leafUuid], the list
    [getActiveBranch] returns is a parent chain: each message names the
    one before it as parent, the last one carries the [leafUuid], and the
    first one has no parent or names a parent that no message carries. *)
Theorem getActiveBranch_is_parent_chain fuel conversation s0 branch :
  head (summaries conversation) = Some s0 →
  (∃ m, m ∈ messages conversation ∧ uuid m = leafUuid s0) →
  getActiveBranch fuel conversation = Some branch →
  chained branch ∧
  (∃ leaf, last branch = Some leaf ∧ uuid leaf = leafUuid s0) ∧
  ∃ first, head branch = Some first ∧
           (parentUuid first = None ∨
            ∃ p, parentUuid first = Some p ∧
                 ∀ m, m ∈ messages conversation → uuid m ≠ p).
Proof.
  intros Hs0 Hfound Hrun.
  destruct (getActiveBranch_walk fuel conversation s0 branch Hs0 Hfound Hrun)
    as (leaf & rest & fuel' & Hleaf & Hwalk & ->).
  apply traceBack_chain in Hwalk as (Hchain & Hlast & first & Hhead & Hfirst);
    [| done | done].
  split; [done |]. split.
  - exists leaf. split; [by rewrite Hlast |].
    by apply messageMapOf_Some in Hleaf as [_ ?].
  - exists first. split; [done |].
    destruct Hfirst as [? | (p & Hp & Hnone)]; [by left |].
    right. exists p. split; [done |]. by apply messageMapOf_None.
Qed.

(** X14. When the message with the first summary's [leafUuid] lies on a
    cycle of parents (identifiers pairwise distinct), the loop of
    [getActiveBranch] never ends: no number of iterations is enough.
    [onCycle] is a set of identifiers that holds the [leafUuid] and, with
    each identifier, the parent of its message. *)
Theorem getActiveBranch_loops_on_cycle fuel conversation s0
    (onCycle : string → Prop) :
  head (summaries conversation) = Some s0 →
  NoDup (uuid <$> messages conversation) →
  onCycle (leafUuid s0) →
  (∀ u, onCycle u →
        ∃ m p, m ∈ messages conversation ∧ uuid m = u ∧
               parentUuid m = Some p ∧ onCycle p) →
  getActiveBranch fuel conversation = None.
Proof.
  intros Hs0 Hnd Hleaf Hclosed.
  assert (∀ fuel u branch,
            onCycle u →
            traceBack fuel (messageMapOf (messages conversation))
                      (Some u) branch = None) as Hloop.
  { clear fuel. induction fuel as [|fuel IH]; intros u branch Hu; [done |].
    destruct (Hclosed u Hu) as (m & p & Hm & <- & Hp & Hcycle).
    simpl. rewrite (messageMapOf_NoDup _ _ Hnd Hm), Hp. by apply IH. }
  destruct (Hclosed _ Hleaf) as (m & p & Hm & Hu & _).
  unfold getActiveBranch.
  destruct (summaries conversation) as [|s ss]; [done |].
  injection Hs0 as ->.
  destruct (messages conversation) as [|m0 ms] eqn:Hms;
    [by apply elem_of_nil in Hm |].
  fold (messageMapOf (m0 :: ms)).
  rewrite bool_decide_eq_true_2; [by apply Hloop |].
  rewrite <- Hu, (messageMapOf_NoDup _ _ Hnd Hm). by eexists.
Qed.

(** Without cycles the loop never takes a message twice. *)
Lemma traceBack_NoDup msgs fuel cur branch result :
  acyclic msgs →
  NoDup branch →
  (∀ x, x ∈ branch → x ∈ msgs) →
  (∀ x m, x ∈ branch → cur = Some (uuid m) → m ∈ msgs →
          tc (parentLink msgs) x m) →
  traceBack fuel (messageMapOf msgs) cur branch = Some result →
  NoDup result.
Proof.
  intros Hacyc. revert cur branch.
  induction fuel as [|fuel IH]; intros cur branch Hnd Hsub Hdesc; [done |].
  simpl. destruct cur as [u|]; [| by intros [= <-]].
  destruct (messageMapOf msgs !! u) as [message|] eqn:Hu;
    [| by intros [= <-]].
  apply messageMapOf_Some in Hu as [Hin <-].
  assert (message ∉ branch) as Hfresh.
  { intros Hseen. apply (Hacyc message). by apply Hdesc. }
  apply IH.
  - by constructor.
  - intros x [-> | Hx]%elem_of_cons; auto.
  - intros x m Hx Hcur Hm.
    assert (parentLink msgs message m) as Hlink by done.
    apply elem_of_cons in Hx as [-> | Hx].
    + by apply tc_once.
    + eapply tc_r; [| exact Hlink]. by apply Hdesc.
Qed.

(** X15. Without a cycle of parents, the walk from a leaf that is found
    returns no message twice, so the branch is never longer than
    [messages]. *)
Theorem getActiveBranch_no_repeats fuel conversation s0 branch :
  acyclic (messages conversation) →
  head (summaries conversation) = Some s0 →
  (∃ m, m ∈ messages conversation ∧ uuid m = leafUuid s0) →
  getActiveBranch fuel conversation = Some branch →
  NoDup branch ∧ length branch ≤ length (messages conversation).
Proof.
  intros Hacyc Hs0 Hfound Hrun.
  assert (NoDup branch) as Hnd.
  { revert Hrun. unfold getActiveBranch.
    destruct (summaries conversation) as [|s ss]; [done |].
    destruct (messages conversation) as [|m0 ms] eqn:Hms.
    { destruct Hfound as (m & Hm & _). by apply elem_of_nil in Hm. }
    fold (messageMapOf (m0 :: ms)). injection Hs0 as ->.
    rewrite bool_decide_eq_true_2.
    - apply traceBack_NoDup; [done | constructor | | ].
      + by intros x ?%elem_of_nil.
      + by intros x m ?%elem_of_nil.
    - destruct Hfound as (m & Hm & Hleaf).
      destruct (messageMapOf (m0 :: ms) !! leafUuid s0) eqn:Hmap;
        [by eexists |].
      exfalso. eapply messageMapOf_None in Hmap; [| exact Hm]. done. }
  split; [done |].
  apply submseteq_length, NoDup_submseteq; [done |].
  destruct (getActiveBranch_walk fuel conversation s0 branch Hs0 Hfound Hrun)
    as (leaf & rest & fuel' & Hleaf & Hwalk & ->).
  eapply traceBack_members; [exact Hwalk |].
  intros x [-> | ?%elem_of_nil]%elem_of_cons; [| done].
  by apply messageMapOf_Some in Hleaf as [? _].
Qed.

(** X16. On a conversation in which validation finds nothing and no
    [parentUuid] is the empty string, the active branch from a leaf that
    is found starts at a root: its first message has a null
    [parentUuid]. *)
Theorem getActiveBranch_of_clean_conversation_starts_at_root
    fuel conversation s0 branch :
  parseErrors (parseAndValidateConversation conversation) =
    parseErrors conversation →
  (∀ m, m ∈ messages conversation → parentUuid m ≠ Some "") →
  head (summaries conversation) = Some s0 →
  (∃ m, m ∈ messages conversation ∧ uuid m = leafUuid s0) →
  getActiveBranch fuel conversation = Some branch →
  ∃ first, head branch = Some first ∧ parentUuid first = None.
Proof.
  intros Hclean Hne Hs0 Hfound Hrun.
  assert (validationErrors conversation = []) as Hnil.
  { simpl in Hclean. apply (app_inv_head (parseErrors conversation)).
    by rewrite app_nil_r. }
  apply validationErrors_nil in Hnil as [_ Hparents].
  destruct (getActiveBranch_walk fuel conversation s0 branch Hs0 Hfound Hrun)
    as (leaf & rest & fuel' & Hleaf & Hwalk & ->).
  pose proof (traceBack_members _ _ _ _ _ Hwalk) as Hmem.
  apply traceBack_chain in Hwalk as (_ & _ & first & Hhead & Hfirst);
    [| done | done].
  exists first. split; [done |].
  destruct Hfirst as [? | (p & Hp & Hnone)]; [done |]. exfalso.
  assert (first ∈ messages conversation) as Hin.
  { apply Hmem.
    - intros x [-> | ?%elem_of_nil]%elem_of_cons; [| done].
      by apply messageMapOf_Some in Hleaf as [? _].
    - destruct branch; [done |]. injection Hhead as ->.
      apply list_elem_of_here. }
  assert (p ∈ uuid <$> messages conversation) as Hp'.
  { apply (Hparents first p); [done | done |].
    intros ->. by apply (Hne first). }
  apply list_elem_of_fmap in Hp' as (m & -> & Hm).
  eapply messageMapOf_None in Hnone; [| exact Hm]. done.
Qed.
End BranchShape.

Section BranchShapeExamples.
Import Examples.

Lemma getActiveBranch_is_parent_chain_witness :
  chained [root; A; B] ∧
  (∃ leaf, last [root; A; B] = Some leaf ∧ uuid leaf = "b") ∧
  ∃ first, head [root; A; B] = Some first ∧
           (parentUuid first = None ∨
            ∃ p, parentUuid first = Some p ∧
                 ∀ m, m ∈ [C; root; A; B] → uuid m ≠ p).
Proof.
  apply (getActiveBranch_is_parent_chain 4
           (conv [leaf "b"] [C; root; A; B]) (leaf "b") [root; A; B]).
  - reflexivity.
  - exists B. split; [| reflexivity]. simpl. repeat constructor.
  - reflexivity.
Defined.

Lemma getActiveBranch_loops_on_cycle_witness :
  getActiveBranch 1000
    (conv [leaf "p"] [msg "p" (Some "q"); root; msg "q" (Some "p")]) = None.
Proof.
  apply (getActiveBranch_loops_on_cycle 1000
           (conv [leaf "p"] [msg "p" (Some "q"); root; msg "q" (Some "p")])
           (leaf "p") (fun u => u = "p" ∨ u = "q")).
  - reflexivity.
  - apply (bool_decide_unpack _). vm_compute. exact I.
  - by left.
  - intros u [-> | ->].
    + exists (msg "p" (Some "q")), "q". simpl.
      repeat split; [repeat constructor | by right].
    + exists (msg "q" (Some "p")), "p". simpl.
      repeat split; [repeat constructor | by left].
Defined.

Lemma acyclic_A_root : acyclic [A; root].
Proof.
  apply (acyclic_ranked _ (fun m => String.length (uuid m))).
  intros x y (Hx & Hy & Hp).
  apply elem_of_cons in Hx as [-> | Hx];
    apply elem_of_cons in Hy as [-> | Hy]; try discriminate.
  - apply elem_of_cons in Hy as [-> | Hy]; [simpl; lia |].
    by apply elem_of_nil in Hy.
  - apply elem_of_cons in Hx as [-> | Hx]; [discriminate |].
    by apply elem_of_nil in Hx.
  - apply elem_of_cons in Hx as [-> | Hx]; [| by apply elem_of_nil in Hx].
    apply elem_of_cons in Hy as [-> | Hy]; [discriminate |].
    by apply elem_of_nil in Hy.
Qed.

Lemma getActiveBranch_no_repeats_witness :
  NoDup [root; A] ∧ length [root; A] ≤ length [A; root].
Proof.
  apply (getActiveBranch_no_repeats 3 (conv [leaf "a"] [A; root])
           (leaf "a") [root; A]).
  - apply acyclic_A_root.
  - reflexivity.
  - exists A. split; [| reflexivity]. simpl. repeat constructor.
  - reflexivity.
Defined.

Lemma getActiveBranch_of_clean_conversation_witness :
  ∃ first, head [root; A] = Some first ∧ parentUuid first = None.
Proof.
  apply (getActiveBranch_of_clean_conversation_starts_at_root 3
           (conv [leaf "a"] [A; root]) (leaf "a") [root; A]).
  - reflexivity.
  - intros m Hm. simpl in Hm.
    apply elem_of_cons in Hm as [-> | Hm]; [discriminate |].
    apply elem_of_cons in Hm as [-> | Hm]; [discriminate |].
    by apply elem_of_nil in Hm.
  - reflexivity.
  - exists A. split; [| reflexivity]. simpl. repeat constructor.
  - reflexivity.
Defined.
End BranchShapeExamples.

(** ** Guards on decoded values *)

Section GuardsMore.
Context {Num : Type} `{!JSRuntime Num}.
Implicit Types (v : json Num).

(** X17. On a decoded value [isSummaryMessage] always answers, and
    [isConversationMessage] throws exactly on the values that are neither
    objects nor arrays; no value is both a summary and a conversation
    message. *)
Theorem guards_on_decoded_values v :
  (∃ b, isSummaryMessage v = Returned b) ∧
  (isObject v = false ↔ ∃ e, isConversationMessage v = Threw e) ∧
  ¬ (isSummaryMessage v = Returned true ∧
     isConversationMessage v = Returned true).
Proof.
  split; [| split].
  - rewrite isSummaryMessage_returns. by eexists.
  - split.
    + intros [_ Hthrow]%isConversationMessage_primitive. by eexists.
    + by intros [e [Hobj _]%isConversationMessage_Threw].
  - destruct v as [| | | |items|fields]; try by intros [? ?].
    intros [Hs Hm].
    unfold isSummaryMessage, isConversationMessage, in_operator in Hs, Hm.
    set (ty := get_property "type" (JObj fields)) in *.
    set (uu := get_property "uuid" (JObj fields)) in *.
    clearbody ty uu. simpl in Hs, Hm.
    destruct (bool_decide (is_Some ty)); [| done].
    destruct (bool_decide (is_Some uu)); [| done]. simpl in Hs, Hm.
    destruct ty as [[| | |t| |]|]; simpl in Hs, Hm; try done.
    injection Hs as Hs. injection Hm as Hm.
    apply bool_decide_eq_true in Hs as ->. by vm_compute in Hm.
Qed.
End GuardsMore.

(** ** Statistics without assistant messages *)

Section StatsNoAssistant.
Context {Num : Type} `{!JSNumber Num}.
Implicit Types (conversation : Conversation Num).

(** X18. When no message is an assistant message, the statistics that
    are computed from assistant messages are at their baseline: the cost,
    the average response time (no division takes place) and the token
    totals are 0, [models] is empty and [assistantMessageCount] is 0. *)
Theorem stats_without_assistant_messages conversation :
  (∀ m, m ∈ messages conversation → isAssistantMessage m = false) →
  assistantMessageCount (calculateConversationStats conversation) = 0 ∧
  totalCostUSD (calculateConversationStats conversation) = num_zero ∧
  averageResponseTimeMs (calculateConversationStats conversation) = num_zero ∧
  totalTokens (calculateConversationStats conversation) = zeroTokens ∧
  models (calculateConversationStats conversation) = ∅.
Proof.
  intros Hnone. unfold calculateConversationStats.
  destruct (messages conversation) as [|m0 msgs]; [done |].
  assert (List.filter isAssistantMessage (m0 :: msgs) = []) as Hfilter.
  { induction (m0 :: msgs) as [|m l IH]; [done |]. simpl.
    rewrite (Hnone m (list_elem_of_here _ _)). apply IH.
    intros x Hx. apply Hnone. by apply list_elem_of_further. }
  cbn [assistantMessageCount totalCostUSD averageResponseTimeMs totalTokens
       models].
  by rewrite Hfilter.
Qed.
End StatsNoAssistant.

Section StatsNoAssistantExamples.
Import Examples.

Lemma stats_without_assistant_messages_witness :
  assistantMessageCount (calculateConversationStats (conv [] [root; A])) = 0 ∧
  totalCostUSD (calculateConversationStats (conv [] [root; A])) = 0%Z ∧
  averageResponseTimeMs (calculateConversationStats (conv [] [root; A]))
    = 0%Z ∧
  totalTokens (calculateConversationStats (conv [] [root; A])) = zeroTokens ∧
  models (calculateConversationStats (conv [] [root; A])) = ∅.
Proof.
  refine (stats_without_assistant_messages (conv [] [root; A]) _).
  intros m Hm. simpl in Hm.
  apply elem_of_cons in Hm as [-> | Hm]; [reflexivity |].
  apply elem_of_cons in Hm as [-> | Hm]; [reflexivity |].
  by apply elem_of_nil in Hm.
Defined.
End StatsNoAssistantExamples.

(** ** Tree builder on a well-formed conversation *)

Section TreeComplete.
Context {Num : Type}.
Implicit Types (m x : ConversationMessage Num)
               (msgs l : list (ConversationMessage Num))
               (conversation : Conversation Num).

(** Along a parent chain the depth grows by one at each step. *)
Lemma chained_atDepth msgs d x l :
  NoDup (uuid <$> msgs) →
  (∀ y, y ∈ x :: l → y ∈ msgs) →
  chained (x :: l) →
  atDepth msgs d x = true →
  ∀ i y, (x :: l) !! i = Some y → atDepth msgs (d + i) y = true.
Proof.
  intros Hnd. revert d x.
  induction l as [|x' l IH]; intros d x Hin Hchain Hd i y Hi.
  - destruct i as [|i]; [| done]. injection Hi as <-.
    by rewrite Nat.add_0_r.
  - destruct i as [|i].
    + injection Hi as <-. by rewrite Nat.add_0_r.
    + rewrite Nat.add_succ_r, <- Nat.add_succ_l.
      destruct Hchain as [Hparent Hchain].
      apply (IH (S d) x'); [| done | | done].
      * intros z Hz. apply Hin. by apply list_elem_of_further.
      * apply atDepth_succ. exists x. split; [done |].
        split; [| done]. apply findMessage_NoDup; [done |].
        apply Hin, list_elem_of_here.
Qed.

(** With distinct identifiers, no cycle and every parent present, each
    message hangs below a root. *)
Lemma every_message_rooted msgs m :
  NoDup (uuid <$> msgs) →
  acyclic msgs →
  (∀ x p, x ∈ msgs → parentUuid x = Some p → p ∈ uuid <$> msgs) →
  m ∈ msgs →
  rooted msgs m = true.
Proof.
  intros Hnd Hacyc Hparents Hm.
  destruct (traceBack_terminates msgs (S (length msgs)) (Some (uuid m)) [] [])
    as [result Hrun]; [done | constructor | | | simpl; lia |].
  { by intros x ?%elem_of_nil. }
  { by intros x y ?%elem_of_nil. }
  pose proof (traceBack_NoDup msgs _ _ _ _ Hacyc (NoDup_nil_2)
                (fun x (H : x ∈ []) => False_ind _ (not_elem_of_nil x H))
                (fun x y (H : x ∈ []) _ _ =>
                   False_ind _ (not_elem_of_nil x H)) Hrun) as Hnodup.
  pose proof (traceBack_members msgs _ _ _ _ Hrun
                (fun x (H : x ∈ []) => False_ind _ (not_elem_of_nil x H)))
    as Hmem.
  simpl in Hrun. rewrite (messageMapOf_NoDup _ _ Hnd Hm) in Hrun.
  apply traceBack_chain in Hrun as (Hchain & Hlast & first & Hhead & Hfirst);
    [| done | done].
  assert (parentUuid first = None) as Hroot.
  { destruct Hfirst as [? | (p & Hp & Hnone)]; [done |]. exfalso.
    assert (first ∈ msgs) as Hin.
    { apply Hmem. destruct result; [done |]. injection Hhead as ->.
      apply list_elem_of_here. }
    apply (Hparents first p Hin) in Hp.
    apply list_elem_of_fmap in Hp as (q & -> & Hq).
    eapply messageMapOf_None in Hnone; [| exact Hq]. done. }
  destruct result as [|x l]; [done |]. injection Hhead as ->.
  assert (length (first :: l) ≤ length msgs) as Hlen.
  { apply submseteq_length, NoDup_submseteq; done. }
  assert ((first :: l) !! length l = Some m) as Hpos.
  { rewrite last_lookup in Hlast. exact Hlast. }
  pose proof (chained_atDepth msgs 0 first l Hnd Hmem Hchain) as Hdepth.
  unfold rooted. apply existsb_exists. exists (length l). split.
  - apply in_seq. simpl in Hlen. lia.
  - apply (Hdepth); [| done]. simpl. by rewrite Hroot.
Qed.

(** X19. For a list of messages, each with a [parentUuid] that is null
    or a string as [ConversationMessage] declares, in which identifiers
    are pairwise distinct, every [parentUuid] that is not null is the
    identifier of a message of the list and no message is its own
    ancestor, [buildConversationTree] returns a forest with as many nodes
    as there are messages (a recursion depth of [messages.length] is
    enough): no message is left out. *)
Theorem buildConversationTree_complete fuel
    (msgs : list (ConversationMessage Num)) :
  NoDup (uuid <$> msgs) →
  (∀ m p, m ∈ msgs → parentUuid m = Some p → p ∈ uuid <$> msgs) →
  acyclic msgs →
  length msgs ≤ fuel →
  ∃ forest,
    buildConversationTree fuel msgs = Some forest ∧
    forestCount forest = length msgs.
Proof.
  intros Hnd Hparents Hacyc Hfuel.
  destruct (buildConversationTree_rooted fuel msgs Hnd Hfuel)
    as (forest & Hrun & Hcount).
  exists forest. split; [done |]. rewrite Hcount. f_equal.
  apply List.forallb_filter_id, forallb_forall.
  intros m Hm%list_elem_of_In.
  by apply every_message_rooted.
Qed.
End TreeComplete.

Section TreeCompleteExamples.
Import Examples.

Lemma buildConversationTree_complete_witness :
  ∃ forest,
    buildConversationTree 2 [A; root] = Some forest ∧
    forestCount forest = 2.
Proof.
  apply (buildConversationTree_complete 2 [A; root]).
  - apply (bool_decide_unpack _). reflexivity.
  - intros m p Hm Hp.
    apply elem_of_cons in Hm as [-> | Hm].
    { injection Hp as <-. apply (bool_decide_unpack _). reflexivity. }
    apply elem_of_cons in Hm as [-> | Hm]; [discriminate |].
    by apply elem_of_nil in Hm.
  - apply acyclic_A_root.
  - simpl. lia.
Defined.
End TreeCompleteExamples.
